(** * tiler-the-creator: tile sampling, clipped paste, layer compositing and
    layer-order allocation

    A shallow embedding of the core of [tiler_toolkit.py] and of the
    permutation allocator of [legacy/tiler-test-05.py].

    Conventions of the embedding.
    - Python [int] is [Z]; [//] is [Z.div] (both round toward minus infinity).
    - Python [float] is binary64: the primitive [float], whose operations
      round to nearest, ties to even, as the hardware's do.
    - A raised exception is the [Raise] outcome of [result].
    - Of Pillow's image modes the embedding has L, RGB and RGBA; a colour
      is a string, which Pillow has to understand, or a tuple of bands.
    - Pillow images are mutable objects: the world holds a store from
      references to image values, and [Image.paste] updates the store in place.
    - [random.randint] and friends called on the module [random] draw from the
      hidden module-level generator, which is a component of the world;
      a [random.Random] object handed around as [rng] is threaded explicitly. *)

From Stdlib Require Import ZArith Lia String Floats Reals Lra.
From stdpp Require Import base option list gmap pretty.

Set Warnings "-inexact-float".

Local Open Scope Z_scope.

(** ** Outcomes *)

Inductive exn : Type :=
| ValueError (msg : string)
| IndexError (msg : string)
| OverflowError (msg : string)
| BadRef (r : nat).   (* a reference to no object: not a Python outcome *)

Inductive result (A : Type) : Type :=
| Ok (a : A)
| Raise (e : exn).
Arguments Ok {A} a.
Arguments Raise {A} e.

Definition is_Ok {A} (r : result A) : Prop :=
  match r with Ok _ => True | Raise _ => False end.

(** ** Python numerics *)

(** [float(n)] for an [int], as the arithmetic operators convert an [int]
    operand: the nearest binary64 value, ties to even; an [int] that rounds
    beyond the largest one raises. *)
Definition float_of_int (n : Z) : result float :=
  let f := SF2Prim (binary_normalize prec emax n 0 false) in
  if PrimFloat.is_infinity f
  then Raise (OverflowError "int too large to convert to float")
  else Ok f.

(** [m / 2 ** k] to the nearest integer, ties to even, for [m >= 0]. *)
Definition round_half_even (m k : Z) : Z :=
  let d := 2 ^ k in
  let q := m / d in
  match 2 * (m mod d) ?= d with
  | Lt => q
  | Gt => q + 1
  | Eq => if Z.even q then q else q + 1
  end.

(** [round(x)] with one argument: to the nearest integer, ties to even.
    An infinity raises [OverflowError] and a NaN [ValueError]. *)
Definition py_round (x : float) : result Z :=
  match Prim2SF x with
  | S754_nan => Raise (ValueError "cannot convert float NaN to integer")
  | S754_infinity _ =>
      Raise (OverflowError "cannot convert float infinity to integer")
  | S754_zero _ => Ok 0
  | S754_finite s m e =>
      let v := if 0 <=? e then Z.pos m * 2 ^ e
               else round_half_even (Z.pos m) (- e) in
      Ok (if s then - v else v)
  end.

(** [list(range(n))] *)
Definition range (n : nat) : list nat := seq 0 n.

(** [math.factorial] *)
Fixpoint factorial (n : nat) : Z :=
  match n with
  | O => 1
  | S k => Z.of_nat (S k) * factorial k
  end.

(** ** The math module

    [math.cos] is the cosine of the C library, which is not part of the
    repository.  The ease function calls it, at [t = 0], [t = 1/2] and
    [t = 1], on [0.0], on [math.pi * 0.5] and on [math.pi]; the interface
    fixes its value there, the binary64 value nearest to the cosine of the
    argument. *)

Definition math_pi : float := 0x1.921fb54442d18p+1%float.

Class Libm : Type := {
  math_cos : float -> float;
  cos_zero : math_cos 0 = 1%float;
  cos_half_pi : math_cos (math_pi * 0.5) = 0x1.1a62633145c07p-54%float;
  cos_pi : math_cos math_pi = (-1)%float
}.

(** The three tabulated values, and no number elsewhere: one concrete
    instance of the interface. *)
Definition cos_table (x : float) : float :=
  if (x =? 0)%float then 1%float
  else if (x =? math_pi * 0.5)%float then 0x1.1a62633145c07p-54%float
  else if (x =? math_pi)%float then (-1)%float
  else nan.

#[export] Instance table_libm : Libm := {|
  math_cos := cos_table;
  cos_zero := eq_refl;
  cos_half_pi := eq_refl;
  cos_pi := eq_refl
|}.

(** ** The generator interface ([random.Random])

    The Mersenne Twister itself is not part of the repository.  What the
    code relies on is the interface below: a generator state, the two
    primitive draws every other method of [random.Random] is built from,
    and the ranges of those draws. *)

Class PyRandom (G : Type) : Type := {
  (** [random.Random(seed)] *)
  Random_seed : Z -> G;
  (** [_randbelow(n)], for [n > 0] *)
  randbelow : Z -> G -> Z * G;
  (** [random()] *)
  random_float : G -> float * G;
  randbelow_range : forall n g, 0 < n -> 0 <= (randbelow n g).1 < n;
  random_float_range : forall g,
    (0 <=? (random_float g).1)%float = true
    /\ ((random_float g).1 <? 1)%float = true
}.

(** A small linear congruential generator: one concrete instance of the
    interface, used to run the model on concrete inputs. *)
Module Lcg.
Definition modulus : Z := 2147483648.
Definition next (g : Z) : Z := (1103515245 * g + 12345) mod modulus.
Definition seed (s : Z) : Z := s mod modulus.
Definition below (n : Z) (g : Z) : Z * Z := (next g mod n, next g).
(** The float [k / 256], for the top eight bits [k] of the next state. *)
Definition eighth_bits (k : Z) : float :=
  SF2Prim (binary_normalize prec emax k (-8) false).
Definition random (g : Z) : float * Z :=
  (eighth_bits (next g / 8388608), next g).
Definition unit_interval (k : Z) : bool :=
  ((0 <=? eighth_bits k) && (eighth_bits k <? 1))%float.
End Lcg.

#[export] Instance lcg : PyRandom Z.
Proof.
  refine {| Random_seed := Lcg.seed;
            randbelow := Lcg.below;
            random_float := Lcg.random |}.
  - intros n g Hn. unfold Lcg.below. simpl. apply Z.mod_pos_bound. exact Hn.
  - intros g.
    assert (0 <= Lcg.next g < 2147483648) as Hr
      by (apply Z.mod_pos_bound; reflexivity).
    assert (forallb Lcg.unit_interval (Z.of_nat <$> seq 0 256) = true) as Hall
      by (vm_compute; reflexivity).
    rewrite forallb_forall in Hall.
    specialize (Hall (Lcg.next g / 8388608)).
    unfold Lcg.unit_interval in Hall. unfold Lcg.random. cbn [fst].
    apply andb_prop, Hall.
    apply list_elem_of_In,
      (list_elem_of_fmap_2' _ _ (Z.to_nat (Lcg.next g / 8388608))).
    + apply elem_of_seq.
      assert (Lcg.next g / 8388608 < 256)
        by (apply Z.div_lt_upper_bound; lia).
      assert (0 <= Lcg.next g / 8388608) by (apply Z.div_pos; lia). lia.
    + rewrite Z2Nat.id; [reflexivity|apply Z.div_pos; lia].
Defined.

Section Generator.
Context {G : Type} `{PyRandom G}.

(** [randint(a, b)] is [randrange(a, b + 1)]: an empty range raises. *)
Definition Random_randint (a b : Z) (g : G) : result (Z * G) :=
  let width := b + 1 - a in
  if 0 <? width
  then let '(r, g') := randbelow width g in Ok (a + r, g')
  else Raise (ValueError "empty range for randrange()").

(** [uniform(a, b)] is [a + (b - a) * random()]. *)
Definition Random_uniform (a b : float) (g : G) : float * G :=
  let '(r, g') := random_float g in ((a + (b - a) * r)%float, g').

(** [shuffle(x)]:
    [for i in reversed(range(1, len(x))): j = randbelow(i + 1);
     x[i], x[j] = x[j], x[i]].
    [shuffle_from k] runs the iterations [i = k, k - 1, ..., 1].  Both
    indices are below [len(x)], so the two reads succeed. *)
Fixpoint shuffle_from {A} (k : nat) (x : list A) (g : G) : list A * G :=
  match k with
  | O => (x, g)
  | S k' =>
      let '(j, g') := randbelow (Z.of_nat k + 1) g in
      let j := Z.to_nat j in
      let x' :=
        match x !! k, x !! j with
        | Some xi, Some xj => <[j := xi]> (<[k := xj]> x)
        | _, _ => x
        end in
      shuffle_from k' x' g'
  end.

Definition Random_shuffle {A} (x : list A) (g : G) : list A * G :=
  shuffle_from (length x - 1)%nat x g.

End Generator.

(** ** Pillow rasters *)

Inductive Mode : Type := L | RGB | RGBA.

#[export] Instance Mode_eq_dec : EqDecision Mode.
Proof. solve_decision. Defined.

Definition bands (m : Mode) : nat :=
  match m with L => 1%nat | RGB => 3%nat | RGBA => 4%nat end.

(** A pixel is the tuple of its band values, as [getpixel] returns it. *)
Definition Pixel : Type := list Z.

(** The value of an image object.  [getpixel] is the raster memory: it is
    defined at every coordinate so that a write outside [size] is
    observable. *)
Record Image : Type := mkImage {
  mode : Mode;
  width : Z;
  height : Z;
  getpixel : Z -> Z -> Pixel
}.

Definition size (im : Image) : Z * Z := (width im, height im).

Definition in_bounds (im : Image) (x y : Z) : Prop :=
  0 <= x < width im /\ 0 <= y < height im.

Definition inside (x0 y0 x1 y1 x y : Z) : bool :=
  (x0 <=? x) && (x <? x1) && (y0 <=? y) && (y <? y1).

(** A pixel of mode [m]: one value in [0, 255] per band. *)
Definition valid_pixel (m : Mode) (p : Pixel) : Prop :=
  length p = bands m ∧ Forall (λ v, 0 ≤ v ≤ 255) p.

(** Pillow's grey level of a colour (ITU-R 601-2 luma, in 16-bit fixed
    point). *)
Definition luma (r g b : Z) : Z :=
  Z.shiftr (r * 19595 + g * 38470 + b * 7471 + 32768) 16.

(** [im.convert(m)] on one pixel, for the band layouts used here. *)
Definition convert_pixel (from to : Mode) (p : Pixel) : Pixel :=
  match from, to with
  | RGBA, RGB => take 3 p
  | RGB, RGBA => p ++ [255]
  | L, RGB => match p with v :: _ => [v; v; v] | [] => [] end
  | L, RGBA => match p with v :: _ => [v; v; v; 255] | [] => [] end
  | (RGB | RGBA), L =>
      match p with r :: g :: b :: _ => [luma r g b] | _ => [] end
  | _, _ => p
  end.

(** Pillow's rounded division by 255 and its blend of one band. *)
Definition div255 (a : Z) : Z :=
  let tmp := a + 128 in Z.shiftr (Z.shiftr tmp 8 + tmp) 8.

Definition blend_band (mask out inp : Z) : Z :=
  div255 (out * (255 - mask) + inp * mask).

Definition blend_pixel (mask : Z) (out inp : Pixel) : Pixel :=
  zip_with (blend_band mask) out inp.

(** The band a mask image contributes: its last one (the alpha band of an
    RGBA mask, the only band of an L mask). *)
Definition mask_value (p : Pixel) : Z := List.last p 255.

(** [Image.new(mode, size, color)] *)
Definition new_image (m : Mode) (sz : Z * Z) (color : Pixel) : Image :=
  {| mode := m; width := sz.1; height := sz.2; getpixel := fun _ _ => color |}.

(** The raster [im.crop((x0, y0, x1, y1))] copies out: coordinates that fall
    outside [im] read as zero. *)
Definition crop_image (im : Image) (x0 y0 x1 y1 : Z) : Image :=
  {| mode := mode im; width := x1 - x0; height := y1 - y0;
     getpixel := fun x y =>
       if inside 0 0 (width im) (height im) (x0 + x) (y0 + y)
       then getpixel im (x0 + x) (y0 + y)
       else replicate (bands (mode im)) 0 |}.

Definition convert_image (m : Mode) (im : Image) : Image :=
  {| mode := m; width := width im; height := height im;
     getpixel := fun x y => convert_pixel (mode im) m (getpixel im x y) |}.

(** [im.split()[-1]]: the last band as an L image. *)
Definition last_band (im : Image) : Image :=
  {| mode := L; width := width im; height := height im;
     getpixel := fun x y => [mask_value (getpixel im x y)] |}.

(** The memory effect of [dest.paste(im, (x, y), mask)]: every pixel of [im]
    is written at its offset from [(x, y)].  Pillow also clips the box
    against [dest]; the clip is left out on purpose, so that staying inside
    [dest] is a property of the caller's arithmetic and not of the model. *)
Definition paste_image (dest im : Image) (x y : Z) (mask : option Image) : Image :=
  {| mode := mode dest; width := width dest; height := height dest;
     getpixel := fun u v =>
       if inside x y (x + width im) (y + height im) u v
       then
         let inp := convert_pixel (mode im) (mode dest) (getpixel im (u - x) (v - y)) in
         match mask with
         | None => inp
         | Some m =>
             blend_pixel (mask_value (getpixel m (u - x) (v - y)))
                         (getpixel dest u v) inp
         end
       else getpixel dest u v |}.

(** The resampling kernel of [Image.resize] (LANCZOS in the toolkit).  Its
    pixel arithmetic belongs to Pillow; the code depends on its geometry. *)
Class Resampler : Type := {
  resample : Image -> Z -> Z -> Image;
  resample_mode : forall im w h, mode (resample im w h) = mode im;
  resample_width : forall im w h, width (resample im w h) = w;
  resample_height : forall im w h, height (resample im w h) = h
}.

(** [ImageColor.getcolor(color, mode)]: the pixel of mode [mode] that a
    colour string names, [None] for a string Pillow does not understand.
    The names and the syntax of colour strings belong to Pillow. *)
Class ImageColor : Type := {
  getcolor : string -> Mode -> option Pixel;
  getcolor_valid : forall c m p, getcolor c m = Some p -> valid_pixel m p
}.

(** A colour argument: a string, or the tuple of the band values. *)
Inductive Color : Type :=
| ColorName (name : string)
| ColorTuple (p : Pixel).

(** Nearest-neighbour sampling: one concrete kernel. *)
Definition nearest_resample (im : Image) (w h : Z) : Image :=
  {| mode := mode im; width := w; height := h;
     getpixel := fun x y => getpixel im (x * width im / w) (y * height im / h) |}.

#[export] Instance nearest : Resampler := {|
  resample := nearest_resample;
  resample_mode := fun _ _ _ => eq_refl;
  resample_width := fun _ _ _ => eq_refl;
  resample_height := fun _ _ _ => eq_refl
|}.

(** A few of the colour names Pillow knows: one concrete table. *)
Definition named_rgb (c : string) : option (Z * Z * Z) :=
  if String.eqb c "white" then Some (255, 255, 255)
  else if String.eqb c "black" then Some (0, 0, 0)
  else if String.eqb c "red" then Some (255, 0, 0)
  else if String.eqb c "lime" then Some (0, 255, 0)
  else if String.eqb c "blue" then Some (0, 0, 255)
  else None.

Definition named_color (c : string) (m : Mode) : option Pixel :=
  match named_rgb c with
  | Some (r, g, b) =>
      Some match m with
           | L => [luma r g b]
           | RGB => [r; g; b]
           | RGBA => [r; g; b; 255]
           end
  | None => None
  end.

#[export] Instance named_colors : ImageColor.
Proof.
  refine {| getcolor := named_color |}.
  intros c m p. unfold named_color, named_rgb.
  repeat (destruct (String.eqb c _); [
    intros [= <-]; destruct m; (split; [reflexivity|]);
    repeat constructor; vm_compute; congruence|]).
  discriminate.
Defined.

(** ** The world and the monad of the toolkit's functions *)

Definition ref : Type := nat.

Record World (G : Type) : Type := mkWorld {
  images : gmap ref Image;      (* the live image objects *)
  random_inst : G               (* the module-level generator of [random] *)
}.
Arguments mkWorld {G} _ _.
Arguments images {G} _.
Arguments random_inst {G} _.

Definition M (G A : Type) : Type := World G -> result (A * World G).

Definition ret {G A} (a : A) : M G A := fun w => Ok (a, w).

Definition bind {G A B} (m : M G A) (k : A -> M G B) : M G B :=
  fun w => match m w with
           | Ok (a, w') => k a w'
           | Raise e => Raise e
           end.

Definition raise {G A} (e : exn) : M G A := fun _ => Raise e.

#[export] Instance M_ret G : MRet (M G) := fun A a => ret a.
#[export] Instance M_bind G : MBind (M G) := fun A B k m => bind m k.

(** The largest value of a C [int], which Pillow's resampling takes sizes
    in. *)
Definition INT_MAX : Z := 2147483647.

Section Pillow.
Context {G : Type} `{PyRandom G} {R : Resampler} {C : ImageColor}.

Definition load (r : ref) : M G Image :=
  fun w => match images w !! r with
           | Some im => Ok (im, w)
           | None => Raise (BadRef r)
           end.

Definition store (r : ref) (im : Image) : M G unit :=
  fun w => Ok (tt, mkWorld (<[r := im]> (images w)) (random_inst w)).

(** A new object lives at a reference no live object has. *)
Definition alloc (im : Image) : M G ref :=
  fun w => let r := fresh (dom (images w)) in
           Ok (r, mkWorld (<[r := im]> (images w)) (random_inst w)).

(** [Image.new(mode, size, color)]: a colour string is looked up first,
    and one that names no colour raises. *)
Definition Image_new (m : Mode) (sz : Z * Z) (color : Color) : M G ref :=
  match color with
  | ColorTuple p => alloc (new_image m sz p)
  | ColorName c =>
      match getcolor c m with
      | Some p => alloc (new_image m sz p)
      | None => raise (ValueError ("unknown color specifier: '" ++ c ++ "'"))
      end
  end.

(** [im.crop(box)]: a box with [right < left] or [lower < upper] raises;
    the result is a new object. *)
Definition Image_crop (r : ref) (box : Z * Z * Z * Z) : M G ref :=
  let '(x0, y0, x1, y1) := box in
  im ← load r;
  if x1 <? x0 then raise (ValueError "Coordinate 'right' is less than 'left'")
  else if y1 <? y0 then raise (ValueError "Coordinate 'lower' is less than 'upper'")
  else alloc (crop_image im x0 y0 x1 y1).

(** [im.resize(size, resample=Image.LANCZOS)]: the same size returns a
    copy; otherwise the size goes to the resampling code, as two C [int]s,
    which does not take a size below one pixel. *)
Definition Image_resize (r : ref) (sz : Z * Z) : M G ref :=
  im ← load r;
  if (sz.1 =? width im) && (sz.2 =? height im) then alloc im
  else if (INT_MAX <? sz.1) || (INT_MAX <? sz.2)
          || (sz.1 <? - INT_MAX - 1) || (sz.2 <? - INT_MAX - 1)
  then raise (OverflowError "Python int too large to convert to C int")
  else if (sz.1 <? 1) || (sz.2 <? 1)
  then raise (ValueError "height and width must be > 0")
  else alloc (resample im sz.1 sz.2).

(** [im.convert(mode)] *)
Definition Image_convert (r : ref) (m : Mode) : M G ref :=
  im ← load r; alloc (convert_image m im).

(** [im.split()[-1]] *)
Definition Image_split_last (r : ref) : M G ref :=
  im ← load r; alloc (last_band im).

(** [dest.paste(im, box, mask)]: [dest] is updated in place. *)
Definition Image_paste (dest im : ref) (box : Z * Z) (mask : option ref) : M G unit :=
  s ← load im;
  m ← match mask with
       | None => ret None
       | Some mr => mi ← load mr; ret (Some mi)
       end;
  d ← load dest;
  match m with
  | Some mi =>
      if (width mi =? width s) && (height mi =? height s)
      then store dest (paste_image d s box.1 box.2 m)
      else raise (ValueError "images do not match")
  | None => store dest (paste_image d s box.1 box.2 None)
  end.

(** An outcome that does not involve the world. *)
Definition lift {A} (r : result A) : M G A :=
  fun w => match r with
           | Ok a => Ok (a, w)
           | Raise e => Raise e
           end.

(** A draw of the module-level generator: [random.randint(a, b)]. *)
Definition random_randint (a b : Z) : M G Z :=
  fun w => match Random_randint a b (random_inst w) with
           | Ok (v, g') => Ok (v, mkWorld (images w) g')
           | Raise e => Raise e
           end.

End Pillow.

(** ** tiler_toolkit.py

    The [verbose] flag only prints; it is left out. *)

Record TilePlacement : Type := mkTilePlacement {
  image : ref;
  center : Z * Z;
  scale : float;
  box : Z * Z * Z * Z
}.

(** [max(1, int(round(tile * scale)))], the size of a scaled tile along one
    axis: the product of an [int] and a [float] is a [float]. *)
Definition scaled_size (tile : Z) (scale : float) : result Z :=
  match float_of_int tile with
  | Raise e => Raise e
  | Ok f =>
      match py_round (f * scale)%float with
      | Raise e => Raise e
      | Ok n => Ok (Z.max 1 n)
      end
  end.

Section Toolkit.
Context {G : Type} `{PyRandom G} {R : Resampler} {C : ImageColor}.

Definition _ensure_positive (value : Z) (name : string) : M G Z :=
  if value <=? 0
  then raise (ValueError (name ++ " must be positive; got " ++ pretty value)%string)
  else ret value.

(** The toolkit's sampler takes no generator: both draws are
    [random.randint], on the module-level generator. *)
Definition choose_random_tile_position (img_w img_h tile_w tile_h : Z)
  : M G (Z * Z * Z * Z) :=
  _ensure_positive tile_w "tile_w";;
  _ensure_positive tile_h "tile_h";;
  if (tile_w >? img_w) || (tile_h >? img_h)
  then raise (ValueError "Tile size is larger than the image")
  else
    let max_left := img_w - tile_w in
    let max_top := img_h - tile_h in
    left ← random_randint 0 max_left;
    top ← random_randint 0 max_top;
    let center_x := left + tile_w / 2 in
    let center_y := top + tile_h / 2 in
    ret (left, top, center_x, center_y).

Definition crop_and_scale_tile (src_img : ref) (left top tile_w tile_h : Z)
    (scale : float) : M G ref :=
  let right := left + tile_w in
  let bottom := top + tile_h in
  tile ← Image_crop src_img (left, top, right, bottom);
  new_w ← lift (scaled_size tile_w scale);
  new_h ← lift (scaled_size tile_h scale);
  Image_resize tile (new_w, new_h).

Definition paste_with_center (dest src : ref) (center_x center_y : Z)
  : M G unit :=
  d ← load dest;
  s ← load src;
  let '(dest_w, dest_h) := size d in
  let '(src_w, src_h) := size s in
  let paste_x := center_x - src_w / 2 in
  let paste_y := center_y - src_h / 2 in
  let src_left := if paste_x <? 0 then - paste_x else 0 in
  let dst_left := if paste_x <? 0 then 0 else paste_x in
  let src_top := if paste_y <? 0 then - paste_y else 0 in
  let dst_top := if paste_y <? 0 then 0 else paste_y in
  let src_right :=
    if paste_x + src_w >? dest_w then src_w - ((paste_x + src_w) - dest_w)
    else src_w in
  let src_bottom :=
    if paste_y + src_h >? dest_h then src_h - ((paste_y + src_h) - dest_h)
    else src_h in
  if (src_left >=? src_right) || (src_top >=? src_bottom) then ret tt
  else
    src_crop ← Image_crop src (src_left, src_top, src_right, src_bottom);
    c ← load src_crop;
    let mask := if decide (mode c = RGBA) then Some src_crop else None in
    Image_paste dest src_crop (dst_left, dst_top) mask.

Definition flatten_opaque (img : ref) (bg_color : string) : M G ref :=
  im ← load img;
  if decide (mode im = RGBA) then
    bg ← Image_new RGB (size im) (ColorName bg_color);
    a ← Image_split_last img;
    Image_paste bg img (0, 0) (Some a);;
    ret bg
  else Image_convert img RGB.

(** The first loop of [build_layered_tiles], [for idx in range(tile_count)]:
    [n] iterations remain. *)
Fixpoint sample_placements (n : nat) (src : ref) (img_w img_h tile_w tile_h : Z)
    (min_scale max_scale : float) (background : string)
    (placements : list TilePlacement) (rng : G)
  : M G (list TilePlacement * G) :=
  match n with
  | O => ret (placements, rng)
  | S n' =>
      '(left_, top_, cx, cy) ← choose_random_tile_position img_w img_h tile_w tile_h;
      let '(sc, rng') := Random_uniform min_scale max_scale rng in
      tile ← crop_and_scale_tile src left_ top_ tile_w tile_h sc;
      flat ← flatten_opaque tile background;
      sample_placements n' src img_w img_h tile_w tile_h min_scale max_scale
        background
        (placements ++ [mkTilePlacement flat (cx, cy) sc
                          (left_, top_, left_ + tile_w, top_ + tile_h)])
        rng'
  end.

(** The second loop, [for layer_pos, idx in enumerate(order)]. *)
Fixpoint paste_layers (order : list nat) (placements : list TilePlacement)
    (canvas : ref) : M G unit :=
  match order with
  | [] => ret tt
  | idx :: rest =>
      match placements !! idx with
      | Some placement =>
          paste_with_center canvas (image placement)
            (center placement).1 (center placement).2;;
          paste_layers rest placements canvas
      | None => raise (IndexError "list index out of range")
      end
  end.

Definition build_layered_tiles (src : ref) (tile_w tile_h tile_count : Z)
    (min_scale max_scale : float) (background : string) (rng : G)
  : M G (ref * G) :=
  s ← load src;
  let '(img_w, img_h) := size s in
  '(placements, rng1) ←
    sample_placements (Z.to_nat tile_count) src img_w img_h tile_w tile_h
      min_scale max_scale background [] rng;
  let '(order, rng2) := Random_shuffle (range (Z.to_nat tile_count)) rng1 in
  canvas ← Image_new RGB (img_w, img_h) (ColorName background);
  paste_layers order placements canvas;;
  ret (canvas, rng2).

End Toolkit.

(** ** itertools.permutations *)

(** Every way of taking one element out of a list, by position and in order:
    the element with the others. *)
Fixpoint picks {A} (l : list A) : list (A * list A) :=
  match l with
  | [] => []
  | x :: t => (x, t) :: ((fun yr => (yr.1, x :: yr.2)) <$> picks t)
  end.

(** [permutations(iterable, r)]: the tuples of [r] elements at distinct
    positions, in lexicographic order of the positions. *)
Fixpoint permutations_r {A} (r : nat) (l : list A) : list (list A) :=
  match r with
  | O => [[]]
  | S r' =>
      picks l ≫= fun xr => cons xr.1 <$> permutations_r r' xr.2
  end.

(** [permutations(iterable)] *)
Definition permutations {A} (l : list A) : list (list A) :=
  permutations_r (length l) l.

(** ** legacy/tiler-test-05.py *)

Module Legacy.
Section Legacy.
Context {G : Type} `{PyRandom G} {Lm : Libm}.

(** The prototype's sampler draws from the generator it is given. *)
Definition choose_random_tile_position (rng : G)
    (img_w img_h tile_w tile_h : Z) : result ((Z * Z * Z * Z) * G) :=
  if (tile_w >? img_w) || (tile_h >? img_h)
  then Raise (ValueError "Tile size is larger than the image.")
  else
    match Random_randint 0 (img_w - tile_w) rng with
    | Raise e => Raise e
    | Ok (left_, rng1) =>
        match Random_randint 0 (img_h - tile_h) rng1 with
        | Raise e => Raise e
        | Ok (top_, rng2) =>
            let center_x := left_ + tile_w / 2 in
            let center_y := top_ + tile_h / 2 in
            Ok ((left_, top_, center_x, center_y), rng2)
        end
    end.

Definition max_enum : Z := 200000.

(** The fallback loop of [build_unique_orders],
    [while len(orders) < frames and attempts < max_attempts].
    Every iteration adds one to [attempts], so [max_attempts] iterations
    are enough: [fuel] starts there (see [shuffle_until_exit]). *)
Fixpoint shuffle_until (fuel : nat) (tiles_n frames : nat) (max_attempts : Z)
    (seen : gset (list nat)) (orders : list (list nat)) (attempts : Z)
    (rng : G) : list (list nat) * Z * G :=
  match fuel with
  | O => (orders, attempts, rng)
  | S fuel' =>
      if (length orders <? frames)%nat && (attempts <? max_attempts) then
        let '(candidate, rng') := Random_shuffle (range tiles_n) rng in
        let attempts' := attempts + 1 in
        if decide (candidate ∈ seen)
        then shuffle_until fuel' tiles_n frames max_attempts
               seen orders attempts' rng'
        else shuffle_until fuel' tiles_n frames max_attempts
               ({[candidate]} ∪ seen) (orders ++ [candidate]) attempts' rng'
      else (orders, attempts, rng)
  end.

(** [tiles_n] and [frames] are positive when [main] calls this (it exits on
    [tiles <= 0 or frames <= 0]); they are naturals here. *)
Definition build_unique_orders (tiles_n frames : nat) (rng : G)
  : list (list nat) * G :=
  let total_perms := factorial tiles_n in
  if (Z.of_nat frames <=? total_perms) && (total_perms <=? max_enum) then
    let all_perms := permutations (range tiles_n) in
    let '(all_perms', rng') := Random_shuffle all_perms rng in
    (take frames all_perms', rng')
  else
    let max_attempts := Z.max 1000 (Z.of_nat frames * 50) in
    let '(orders, _, rng') :=
      shuffle_until (Z.to_nat max_attempts) tiles_n frames max_attempts
        ∅ [] 0 rng in
    (orders, rng').

(** The loop of [main] that tops the orders up,
    [while len(orders) < args.frames]. Every iteration appends one order,
    so [frames - len(orders)] iterations are enough. *)
Fixpoint fill_orders (fuel : nat) (tiles_n frames : nat)
    (orders : list (list nat)) (rng : G) : list (list nat) * G :=
  match fuel with
  | O => (orders, rng)
  | S fuel' =>
      if (length orders <? frames)%nat then
        let '(cand, rng') := Random_shuffle (range tiles_n) rng in
        fill_orders fuel' tiles_n frames (orders ++ [cand]) rng'
      else (orders, rng)
  end.

Definition ease_smooth_sine (t : float) : float :=
  (0.5 * (1 - math_cos (math_pi * t)))%float.

(** The expression of [ease_smooth_sine] read over the real numbers, with
    the cosine and the pi of analysis. *)
Definition ease_real (t : R) : R := (0.5 * (1 - cos (PI * t)))%R.

(** The layer orders [main] paints with when [--unique-permutations] is
    set: the allocator of the specification. *)
Definition main_orders (tiles_n frames : nat) (master_rng : G)
  : list (list nat) * G :=
  let '(orders, rng') := build_unique_orders tiles_n frames master_rng in
  if (length orders <? frames)%nat
  then fill_orders (frames - length orders) tiles_n frames orders rng'
  else (orders, rng').

End Legacy.
End Legacy.

(** ** tiler_toolkit.py, continued *)

Section ToolkitMore.
Context {G : Type} `{PyRandom G} {R : Resampler} {C : ImageColor}.

(** A draw of the module-level generator: [random.uniform(a, b)]. *)
Definition random_uniform (a b : float) : M G float :=
  fun w => let '(v, g') := Random_uniform a b (random_inst w) in
           Ok (v, mkWorld (images w) g').

(** [if background:] holds for a string that is not empty. *)
Definition truthy (background : option string) : bool :=
  match background with
  | Some EmptyString | None => false
  | Some _ => true
  end.

(** [rng = rng or random]: without a generator the scale is drawn from the
    module [random]. *)
Definition build_single_tile (src : ref) (tile_w tile_h : Z)
    (min_scale max_scale : float) (background : option string)
    (rng : option G)
  : M G (ref * option G) :=
  s ← load src;
  let '(img_w, img_h) := size s in
  '(left_, top_, center_x, center_y) ←
    choose_random_tile_position img_w img_h tile_w tile_h;
  '(sc, rng') ←
    match rng with
    | Some g =>
        let '(v, g') := Random_uniform min_scale max_scale g in ret (v, Some g')
    | None => v ← random_uniform min_scale max_scale; ret (v, None)
    end;
  tile ← crop_and_scale_tile src left_ top_ tile_w tile_h sc;
  canvas ← Image_new RGBA (img_w, img_h) (ColorTuple [0; 0; 0; 0]);
  paste_with_center canvas tile center_x center_y;;
  match background with
  | Some bg =>
      if truthy background then
        final ← Image_new RGB (img_w, img_h) (ColorName bg);
        a ← Image_split_last canvas;
        Image_paste final canvas (0, 0) (Some a);;
        ret (final, rng')
      else ret (canvas, rng')
  | None => ret (canvas, rng')
  end.

(** The loop of [build_animation_frames], [for fi in range(frames)]:
    [n] iterations remain. *)
Fixpoint animation_frames (n : nat) (src : ref)
    (tiles_per_frame tile_w tile_h : Z) (min_scale max_scale : float)
    (background : string) (base_rng : G) (result : list ref)
  : M G (list ref) :=
  match n with
  | O => ret result
  | S n' =>
      match Random_randint 0 (2 ^ 63 - 1) base_rng with
      | Raise e => raise e
      | Ok (frame_seed, base_rng') =>
          let frame_rng := Random_seed frame_seed in
          '(frame, _) ←
            build_layered_tiles src tile_w tile_h tiles_per_frame
              min_scale max_scale background frame_rng;
          animation_frames n' src tiles_per_frame tile_w tile_h
            min_scale max_scale background base_rng' (result ++ [frame])
      end
  end.

(** [random.Random()] without a seed starts from the entropy of the
    process: the state it starts in is the argument [entropy]. *)
Definition build_animation_frames (src : ref)
    (frames tiles_per_frame tile_w tile_h : Z) (min_scale max_scale : float)
    (background : string) (seed : option Z) (entropy : G) : M G (list ref) :=
  let base_rng :=
    match seed with Some s => Random_seed s | None => entropy end in
  animation_frames (Z.to_nat frames) src tiles_per_frame tile_w tile_h
    min_scale max_scale background base_rng [].

End ToolkitMore.

(** ** legacy/tiler-test-05.py, continued *)

(** The dict [generate_tiles_once] builds for each tile. *)
Record Tile : Type := mkTile {
  index : nat;
  left : Z;
  top : Z;
  tile_w : Z;
  tile_h : Z;
  base_center : Z * Z;
  base_scale : float;
  static_img : ref;
  orig_box : Z * Z * Z * Z
}.

Module Prototype.
Section Prototype.
Context {G : Type} `{PyRandom G} {R : Resampler} {C : ImageColor}.

Definition crop_and_scale_tile_from_src (src_img : ref)
    (left_ top_ tile_w tile_h : Z) (scale : float) : M G ref :=
  let right_ := left_ + tile_w in
  let bottom := top_ + tile_h in
  tile ← Image_crop src_img (left_, top_, right_, bottom);
  new_w ← lift (scaled_size tile_w scale);
  new_h ← lift (scaled_size tile_h scale);
  Image_resize tile (new_w, new_h).

Definition flatten_tile_to_opaque (tile : ref) (bg_color : string) : M G ref :=
  im ← load tile;
  if decide (mode im = RGBA) then
    bg ← Image_new RGB (size im) (ColorName bg_color);
    a ← Image_split_last tile;
    Image_paste bg tile (0, 0) (Some a);;
    ret bg
  else Image_convert tile RGB.

(** The prototype's paste never passes a mask. *)
Definition paste_opaque_with_center (dest src : ref) (center_x center_y : Z)
  : M G unit :=
  d ← load dest;
  s ← load src;
  let '(dest_w, dest_h) := size d in
  let '(src_w, src_h) := size s in
  let paste_x := center_x - src_w / 2 in
  let paste_y := center_y - src_h / 2 in
  let src_left := if paste_x <? 0 then - paste_x else 0 in
  let dst_left := if paste_x <? 0 then 0 else paste_x in
  let src_top := if paste_y <? 0 then - paste_y else 0 in
  let dst_top := if paste_y <? 0 then 0 else paste_y in
  let src_right :=
    if paste_x + src_w >? dest_w then src_w - ((paste_x + src_w) - dest_w)
    else src_w in
  let src_bottom :=
    if paste_y + src_h >? dest_h then src_h - ((paste_y + src_h) - dest_h)
    else src_h in
  if (src_left >=? src_right) || (src_top >=? src_bottom) then ret tt
  else
    src_crop ← Image_crop src (src_left, src_top, src_right, src_bottom);
    Image_paste dest src_crop (dst_left, dst_top) None.

(** The prototype's sampler inside the monad of the image operations: it
    touches nothing of the world. *)
Definition sample (rng : G) (img_w img_h tile_w tile_h : Z)
  : M G ((Z * Z * Z * Z) * G) :=
  fun w => match Legacy.choose_random_tile_position rng img_w img_h tile_w tile_h with
           | Ok a => Ok (a, w)
           | Raise e => Raise e
           end.

(** The loop of [generate_tiles_once], [for i in range(tiles_count)], at
    iteration [i] with [n] iterations remaining. *)
Fixpoint generate_tiles (n : nat) (i : nat) (src_rgba : ref)
    (img_w img_h tile_w tile_h : Z) (min_scale max_scale : float)
    (bg_color : string) (rng : G) (tiles : list Tile)
  : M G (list Tile * G) :=
  match n with
  | O => ret (tiles, rng)
  | S n' =>
      '((left_, top_, center_x, center_y), rng1) ←
        sample rng img_w img_h tile_w tile_h;
      let '(sc, rng2) := Random_uniform min_scale max_scale rng1 in
      tile_resized ← crop_and_scale_tile_from_src src_rgba left_ top_ tile_w tile_h sc;
      tile_opaque ← flatten_tile_to_opaque tile_resized bg_color;
      generate_tiles n' (S i) src_rgba img_w img_h tile_w tile_h
        min_scale max_scale bg_color rng2
        (tiles ++ [mkTile i left_ top_ tile_w tile_h (center_x, center_y) sc
                     tile_opaque (left_, top_, left_ + tile_w, top_ + tile_h)])
  end.

Definition generate_tiles_once (src_rgba : ref) (tiles_count tile_w tile_h : Z)
    (min_scale max_scale : float) (bg_color : string) (rng : G)
  : M G (list Tile * G) :=
  s ← load src_rgba;
  let '(img_w, img_h) := size s in
  generate_tiles (Z.to_nat tiles_count) 0 src_rgba img_w img_h tile_w tile_h
    min_scale max_scale bg_color rng [].

(** [main]: the tiles to animate,
    [all_indices = list(range(len(tiles))); master_rng.shuffle(all_indices);
     animate_indices = all_indices[:args.animate_count]]
    when [args.animate_count > 0].  [main] has rejected a negative count. *)
Definition animate_indices (tiles_n animate_count : nat) (master_rng : G)
  : list nat * G :=
  if (0 <? animate_count)%nat then
    let '(all_indices, rng') := Random_shuffle (range tiles_n) master_rng in
    (take animate_count all_indices, rng')
  else ([], master_rng).

(** [main] without [--unique-permutations]: the loop
    [for fi in range(args.frames)] that shuffles one order per frame with a
    generator seeded from the master generator; [n] iterations remain. *)
Fixpoint frame_orders (n : nat) (tiles_n : nat) (master_rng : G)
    (orders : list (list nat)) : result (list (list nat) * G) :=
  match n with
  | O => Ok (orders, master_rng)
  | S n' =>
      match Random_randint 0 (2 ^ 63 - 1) master_rng with
      | Raise e => Raise e
      | Ok (frame_seed, master_rng') =>
          let frame_rng := Random_seed frame_seed in
          let '(order, _) := Random_shuffle (range tiles_n) frame_rng in
          frame_orders n' tiles_n master_rng' (orders ++ [order])
      end
  end.

End Prototype.
End Prototype.

(** ** Vocabulary of the further properties *)

(** Every object live in [w] is live, with the same content, in [w']. *)
Definition extends {G} (w w' : World G) : Prop :=
  ∀ r im, images w !! r = Some im → images w' !! r = Some im.

(** The same world with the module-level generator in state [g]. *)
Definition set_random {G} (g : G) (w : World G) : World G :=
  mkWorld (images w) g.

(** A computation that neither reads nor advances the module-level
    generator: running it with that generator in another state changes
    nothing but that state. *)
Definition ignores_module_generator {G A} (m : M G A) : Prop :=
  ∀ w g, m (set_random g w)
         = match m w with
           | Ok (a, w') => Ok (a, set_random g w')
           | Raise e => Raise e
           end.

(** The scale [sc] renders a tile of [tw] by [th]: both scaled sizes are
    defined and fit the C [int]s of the resampling code. *)
Definition renders (tw th : Z) (sc : float) : bool :=
  match scaled_size tw sc, scaled_size th sc with
  | Ok new_w, Ok new_h => (new_w <=? INT_MAX) && (new_h <=? INT_MAX)
  | _, _ => false
  end.

(** Every scale that [uniform(lo, hi)] draws renders, whatever the state of
    the generator it is called on. *)
Definition range_renders (G : Type) `{PyRandom G} (tw th : Z) (lo hi : float)
  : Prop :=
  ∀ g : G, renders tw th (Random_uniform lo hi g).1 = true.

(** The same for the linear congruential generator, whose [random()] has
    256 values: a check that can be run. *)
Definition lcg_range_renders (tw th : Z) (lo hi : float) : bool :=
  forallb (λ k, renders tw th (lo + (hi - lo) * Lcg.eighth_bits k)%float)
          (Z.of_nat <$> seq 0 256).

(** [scaled_size n 1.0] is [n] for each of the [fuel] sizes from [n] on. *)
Fixpoint unit_scale_keeps (fuel : nat) (n : Z) : bool :=
  match fuel with
  | O => true
  | S fuel' =>
      match scaled_size n 1 with
      | Ok m => (m =? n) && unit_scale_keeps fuel' (n + 1)
      | Raise _ => false
      end
  end.

(** The raster [flatten_opaque] returns for the raster [im], on a
    background of colour [bg]. *)
Definition flattened (im : Image) (bg : Pixel) : Image :=
  if decide (mode im = RGBA)
  then paste_image (new_image RGB (size im) bg) im 0 0 (Some (last_band im))
  else convert_image RGB im.

(** What [generate_tiles_once] promises of a tile it returns, for a source
    raster [s] and a tile size [tw] by [th], in the world [w]. *)
Definition tile_invariant {G} (w : World G) (s : Image) (tw th : Z)
    (t : Tile) : Prop :=
  tile_w t = tw ∧ tile_h t = th
  ∧ 0 ≤ left t ∧ left t + tw ≤ width s
  ∧ 0 ≤ top t ∧ top t + th ≤ height s
  ∧ orig_box t = (left t, top t, left t + tw, top t + th)
  ∧ base_center t = (left t + tw / 2, top t + th / 2)
  ∧ ∃ im new_w new_h,
      images w !! static_img t = Some im
      ∧ mode im = RGB
      ∧ scaled_size tw (base_scale t) = Ok new_w
      ∧ scaled_size th (base_scale t) = Ok new_h
      ∧ size im = (new_w, new_h).

(** The rectangle a tile of scaled size [new_w] by [new_h] covers when it
    is pasted with its centre at [center]: the corner is the one
    [paste_with_center] computes. *)
Definition footprint (center : Z * Z) (new_w new_h : Z) (x y : Z) : bool :=
  let paste_x := center.1 - new_w / 2 in
  let paste_y := center.2 - new_h / 2 in
  inside paste_x paste_y (paste_x + new_w) (paste_y + new_h) x y.

(** The rectangle the tile of a placement covers, for a tile size [tw] by
    [th]; nothing when its scale does not render. *)
Definition covers (tw th : Z) (p : TilePlacement) (x y : Z) : bool :=
  match scaled_size tw (scale p), scaled_size th (scale p) with
  | Ok new_w, Ok new_h => footprint (center p) new_w new_h x y
  | _, _ => false
  end.

(** What [build_layered_tiles] keeps of a tile it has sampled, for a source
    raster [s] and a tile size [tw] by [th], in the world [w]. *)
Definition placement_invariant {G} (w : World G) (s : Image) (tw th : Z)
    (p : TilePlacement) : Prop :=
  (∃ l t, 0 ≤ l ∧ l + tw ≤ width s ∧ 0 ≤ t ∧ t + th ≤ height s
          ∧ box p = (l, t, l + tw, t + th)
          ∧ center p = (l + tw / 2, t + th / 2))
  ∧ ∃ im new_w new_h,
      images w !! image p = Some im
      ∧ mode im = RGB
      ∧ scaled_size tw (scale p) = Ok new_w
      ∧ scaled_size th (scale p) = Ok new_h
      ∧ size im = (new_w, new_h).

(** ** Vocabulary of the properties *)

(** A layer order: every tile index of [range(n)], each once. *)
Definition layer_order (n : nat) (o : list nat) : Prop := o ≡ₚ seq 0 n.

(** The state of the fallback loop: [seen] is the set of the collected
    orders, which are distinct layer orders, no more than asked for. *)
Record loop_inv (n frames : nat) (max_attempts : Z)
    (seen : gset (list nat)) (orders : list (list nat)) (attempts : Z)
  : Prop := {
  inv_seen : ∀ o, o ∈ seen ↔ o ∈ orders;
  inv_NoDup : NoDup orders;
  inv_orders : Forall (layer_order n) orders;
  inv_length : (length orders ≤ frames)%nat;
  inv_attempts : 0 ≤ attempts ≤ max_attempts
}.

(** The centre [(center_x, center_y)] is not past the middle of the box
    with corner [(left, top)]: it has no more columns of the box before it
    than after it, and no more rows. *)
Definition toward_top_left (left_ top_ tile_w tile_h center_x center_y : Z)
  : Prop :=
  center_x - left_ ≤ left_ + tile_w - 1 - center_x
  ∧ center_y - top_ ≤ top_ + tile_h - 1 - center_y.

(** The clip of one axis: where the visible part of the source starts and
    ends, and where it lands in the destination. *)
Definition clip_start (p : Z) : Z := if p <? 0 then - p else 0.
Definition clip_dst (p : Z) : Z := if p <? 0 then 0 else p.
Definition clip_end (p src_len dest_len : Z) : Z :=
  if p + src_len >? dest_len then src_len - ((p + src_len) - dest_len)
  else src_len.

(** The source raster, centred on [(center_x, center_y)], shares no pixel
    with the destination. *)
Definition no_overlap (d s : Image) (center_x center_y : Z) : Prop :=
  ∀ x y, in_bounds d x y →
    center_x - width s / 2 ≤ x < center_x - width s / 2 + width s →
    center_y - height s / 2 ≤ y < center_y - height s / 2 + height s →
    False.

(** A two-pixel raster (red, blue) and a one-pixel one, and worlds holding
    them: inputs on which the model is run. *)
Definition red_blue : Image :=
  mkImage RGB 2 1 (fun x _ => if x =? 0 then [255; 0; 0] else [0; 0; 255]).
Definition green_dot : Image := mkImage RGB 1 1 (fun _ _ => [0; 255; 0]).
Definition one_image {G} (g : G) : World G := mkWorld {[0%nat := red_blue]} g.
Definition two_images {G} (g : G) : World G :=
  mkWorld (<[1%nat := green_dot]> {[0%nat := red_blue]}) g.

(** The pixel at [(x, y)] of the canvas a run of the compositor returns. *)
Definition pixel_of_canvas {G} (out : result ((ref * G) * World G)) (x y : Z)
  : option Pixel :=
  match out with
  | Ok ((canvas, _), w) => (fun im => getpixel im x y) <$> images w !! canvas
  | Raise _ => None
  end.

(** A one-pixel raster with an alpha band (fully transparent), and a world
    holding it beside the two others. *)
Definition glass_dot : Image := mkImage RGBA 1 1 (fun _ _ => [10; 20; 30; 0]).
Definition three_images {G} (g : G) : World G :=
  mkWorld (<[2%nat := glass_dot]> (<[1%nat := green_dot]> {[0%nat := red_blue]})) g.


(** * Properties *)

Ltac unfold_M :=
  unfold mbind, M_bind, bind, mret, M_ret, ret, raise in *.

(** ** Runs of the model *)

Example py_round_ties_to_even :
  (py_round 2.5, py_round 3.5, py_round (-2.5), py_round 2.4,
   py_round (-0.3), py_round 0.5)
  = (Ok 2, Ok 4, Ok (-2), Ok 2, Ok 0, Ok 0).
Proof. vm_compute. reflexivity. Qed.

(** The product is rounded to binary64 before [round] sees it: [5 * 0.3] is
    the float [1.5], which rounds to 2, although 0.3 as a float is below
    three tenths. *)
Example scaled_size_rounds_the_product :
  scaled_size 5 0.3 = Ok 2 ∧ scaled_size 7 0.5 = Ok 4
  ∧ scaled_size 3 (-1.5) = Ok 1.
Proof. split_and!; vm_compute; reflexivity. Qed.

(** A product beyond the largest float is an infinity, which [round]
    refuses; one within it can still be beyond a C [int]. *)
Example scaled_size_overflow :
  scaled_size 2 (-1.5e308)
  = Raise (OverflowError "cannot convert float infinity to integer")
  ∧ scaled_size 1 1e30 = Ok 1000000000000000019884624838656.
Proof. split; vm_compute; reflexivity. Qed.

Example factorial_4 : factorial 4 = 24.
Proof. reflexivity. Qed.

Example permutations_range_3 :
  permutations (range 3)
  = [[0; 1; 2]; [0; 2; 1]; [1; 0; 2]; [1; 2; 0]; [2; 0; 1]; [2; 1; 0]]%nat.
Proof. reflexivity. Qed.

Example permutations_r_2_of_3 :
  permutations_r 2 [1; 2; 3]
  = [[1; 2]; [1; 3]; [2; 1]; [2; 3]; [3; 1]; [3; 2]].
Proof. reflexivity. Qed.

Example shuffle_four :
  (Random_shuffle [10; 20; 30; 40] (Random_seed 1)).1 = [20; 40; 10; 30].
Proof. vm_compute. reflexivity. Qed.

(** Four tiles, ten frames: the enumeration branch. *)
Example build_unique_orders_4_10 :
  (Legacy.build_unique_orders 4 10 (Random_seed 42)).1
  = [[2; 3; 0; 1]; [1; 3; 0; 2]; [0; 1; 2; 3]; [0; 3; 1; 2]; [1; 2; 0; 3];
     [1; 0; 3; 2]; [1; 0; 2; 3]; [1; 2; 3; 0]; [0; 3; 2; 1]; [2; 0; 3; 1]]%nat.
Proof. vm_compute. reflexivity. Qed.

(** Two tiles, five frames: only two orders exist, the fallback loop spends
    its budget, and [main] fills the three missing frames with repeats. *)
Example main_orders_2_5 :
  (Legacy.build_unique_orders 2 5 (Random_seed 42)).1 = [[0; 1]; [1; 0]]%nat
  ∧ (Legacy.main_orders 2 5 (Random_seed 42)).1
    = [[0; 1]; [1; 0]; [0; 1]; [1; 0]; [0; 1]]%nat.
Proof. split; vm_compute; reflexivity. Qed.

(** The sampler on a 100 by 100 image with 20 by 20 tiles. *)
Example choose_random_tile_position_run :
  (λ r, r.1) <$> (match choose_random_tile_position 100 100 20 20 (one_image 7)
                  with Ok a => Some a | Raise _ => None end)
  = Some (0, 21, 10, 31).
Proof. vm_compute. reflexivity. Qed.

Section SamplerFacts.
Context {G : Type} `{PyRandom G}.

Lemma Random_randint_spec (a b : Z) (g : G) :
  a <= b ->
  exists v g', Random_randint a b g = Ok (v, g') /\ a <= v <= b.
Proof.
  intros Hab. unfold Random_randint.
  destruct (0 <? b + 1 - a) eqn:Hw; [|apply Z.ltb_ge in Hw; lia].
  pose proof (randbelow_range (b + 1 - a) g ltac:(lia)) as Hr.
  destruct (randbelow (b + 1 - a) g) as [r g'] eqn:Hd. simpl in Hr.
  exists (a + r), g'. split; [reflexivity | lia].
Qed.

Lemma random_randint_spec (a b : Z) (w : World G) :
  a <= b ->
  exists v g', random_randint a b w = Ok (v, mkWorld (images w) g')
               /\ a <= v <= b.
Proof.
  intros Hab. unfold random_randint.
  destruct (Random_randint_spec a b (random_inst w) Hab) as (v & g' & -> & Hv).
  eauto.
Qed.

(** What a call of the sampler on valid geometry returns. *)
Lemma choose_random_tile_position_valid (img_w img_h tile_w tile_h : Z)
    (w : World G) :
  0 < tile_w <= img_w -> 0 < tile_h <= img_h ->
  exists left_ top_ g',
    choose_random_tile_position img_w img_h tile_w tile_h w
    = Ok ((left_, top_, left_ + tile_w / 2, top_ + tile_h / 2),
          mkWorld (images w) g')
    /\ 0 <= left_ <= img_w - tile_w /\ 0 <= top_ <= img_h - tile_h.
Proof.
  intros Hw Hh. unfold choose_random_tile_position, _ensure_positive.
  unfold_M.
  destruct (tile_w <=? 0) eqn:E1; [apply Z.leb_le in E1; lia|].
  destruct (tile_h <=? 0) eqn:E2; [apply Z.leb_le in E2; lia|].
  destruct (tile_w >? img_w) eqn:E3; [apply Z.gtb_lt in E3; lia|].
  destruct (tile_h >? img_h) eqn:E4; [apply Z.gtb_lt in E4; lia|].
  simpl.
  destruct (random_randint_spec 0 (img_w - tile_w) w ltac:(lia))
    as (l & g1 & -> & Hl).
  destruct (random_randint_spec 0 (img_h - tile_h) (mkWorld (images w) g1)
              ltac:(lia)) as (t & g2 & -> & Ht).
  simpl. exists l, t, g2. auto.
Qed.

(** The sampler raises on every other geometry. *)
Lemma choose_random_tile_position_invalid (img_w img_h tile_w tile_h : Z)
    (w : World G) :
  ~ (0 < tile_w <= img_w /\ 0 < tile_h <= img_h) ->
  exists msg,
    choose_random_tile_position img_w img_h tile_w tile_h w
    = Raise (ValueError msg).
Proof.
  intros Hbad. unfold choose_random_tile_position, _ensure_positive.
  unfold_M.
  destruct (tile_w <=? 0) eqn:E1; [eauto|].
  destruct (tile_h <=? 0) eqn:E2; [eauto|].
  apply Z.leb_gt in E1, E2.
  destruct (tile_w >? img_w) eqn:E3; [simpl; eauto|].
  destruct (tile_h >? img_h) eqn:E4; [simpl; eauto|].
  exfalso. apply Hbad.
  pose proof (Zgt_cases tile_w img_w) as C3. rewrite E3 in C3.
  pose proof (Zgt_cases tile_h img_h) as C4. rewrite E4 in C4. lia.
Qed.

(** With positive tile sizes the toolkit's sampler is the prototype's
    sampler run on the module-level generator: the generator it draws from
    is the hidden one, not one of its arguments. *)
Lemma choose_random_tile_position_module_generator
    (img_w img_h tile_w tile_h : Z) (w : World G) :
  0 < tile_w → 0 < tile_h →
  match Legacy.choose_random_tile_position (random_inst w)
          img_w img_h tile_w tile_h with
  | Ok (position, g') =>
      choose_random_tile_position img_w img_h tile_w tile_h w
      = Ok (position, mkWorld (images w) g')
  | Raise _ =>
      ∃ e, choose_random_tile_position img_w img_h tile_w tile_h w = Raise e
  end.
Proof.
  intros Hw Hh.
  unfold Legacy.choose_random_tile_position, choose_random_tile_position,
    _ensure_positive, random_randint.
  unfold_M.
  destruct (tile_w <=? 0) eqn:E1; [apply Z.leb_le in E1; lia|].
  destruct (tile_h <=? 0) eqn:E2; [apply Z.leb_le in E2; lia|].
  destruct ((tile_w >? img_w) || (tile_h >? img_h)); [eauto|].
  destruct (Random_randint 0 (img_w - tile_w) (random_inst w))
    as [[l g1]|e]; [|eauto].
  cbn [random_inst images].
  destruct (Random_randint 0 (img_h - tile_h) g1) as [[t g2]|e]; [|eauto].
  reflexivity.
Qed.

(** The sampler on valid geometry, as a function of the two draws. *)
Lemma choose_random_tile_position_draws (img_w img_h tile_w tile_h : Z)
    (w : World G) :
  0 < tile_w ≤ img_w → 0 < tile_h ≤ img_h →
  choose_random_tile_position img_w img_h tile_w tile_h w
  = let '(l, g1) := randbelow (img_w - tile_w + 1 - 0) (random_inst w) in
    let '(t, g2) := randbelow (img_h - tile_h + 1 - 0) g1 in
    Ok ((0 + l, 0 + t, 0 + l + tile_w / 2, 0 + t + tile_h / 2),
        mkWorld (images w) g2).
Proof.
  intros Hw Hh.
  unfold choose_random_tile_position, _ensure_positive, random_randint,
    Random_randint.
  unfold_M.
  destruct (tile_w <=? 0) eqn:E1; [apply Z.leb_le in E1; lia|].
  destruct (tile_h <=? 0) eqn:E2; [apply Z.leb_le in E2; lia|].
  destruct (tile_w >? img_w) eqn:E3; [apply Z.gtb_lt in E3; lia|].
  destruct (tile_h >? img_h) eqn:E4; [apply Z.gtb_lt in E4; lia|].
  cbn [orb].
  destruct (0 <? img_w - tile_w + 1 - 0) eqn:E5; [|apply Z.ltb_ge in E5; lia].
  destruct (randbelow (img_w - tile_w + 1 - 0) (random_inst w)) as [l g1].
  cbn [random_inst images].
  destruct (0 <? img_h - tile_h + 1 - 0) eqn:E6; [|apply Z.ltb_ge in E6; lia].
  destruct (randbelow (img_h - tile_h + 1 - 0) g1) as [t g2].
  reflexivity.
Qed.

End SamplerFacts.

Section ShuffleFacts.
Context {G : Type} `{PyRandom G}.

(** Each iteration of [shuffle] exchanges two entries, so the list keeps
    its elements. *)
Lemma shuffle_from_Permutation {A} (k : nat) (x : list A) (g : G) :
  (shuffle_from k x g).1 ≡ₚ x.
Proof.
  revert x g. induction k as [|k IH]; intros x g; [reflexivity|].
  cbn [shuffle_from].
  destruct (randbelow (Z.of_nat (S k) + 1) g) as [j g'].
  destruct (x !! S k) as [xi|] eqn:Hi; [|apply IH].
  destruct (x !! Z.to_nat j) as [xj|] eqn:Hj; [|apply IH].
  rewrite IH. by apply Permutation_insert_swap.
Qed.

Lemma Random_shuffle_Permutation {A} (x : list A) (g : G) :
  (Random_shuffle x g).1 ≡ₚ x.
Proof. apply shuffle_from_Permutation. Qed.

Lemma Random_shuffle_range (n : nat) (g : G) :
  (Random_shuffle (range n) g).1 ≡ₚ seq 0 n.
Proof. apply Random_shuffle_Permutation. Qed.

End ShuffleFacts.

Section PermutationsFacts.
Context {A : Type}.
Implicit Types (l p : list A) (x : A).

Lemma picks_fst l : (picks l).*1 = l.
Proof.
  induction l as [|x t IH]; [reflexivity|]. cbn [picks]. csimpl.
  f_equal. rewrite <- list_fmap_compose. exact IH.
Qed.

Lemma picks_Permutation l x p : (x, p) ∈ picks l → l ≡ₚ x :: p.
Proof.
  revert x p. induction l as [|y t IH]; intros x p Hin; cbn [picks] in Hin.
  - by apply elem_of_nil in Hin.
  - apply elem_of_cons in Hin as [Heq | Hin].
    + by inversion Heq.
    + apply list_elem_of_fmap in Hin as ([z q] & Heq & Hin).
      simpl in Heq. inversion Heq; subst.
      rewrite (IH _ _ Hin). apply Permutation_swap.
Qed.

Lemma picks_NoDup l : NoDup l → NoDup (picks l).
Proof.
  intros Hnd. apply (NoDup_fmap_1 fst). by rewrite picks_fst.
Qed.

(** On a duplicate-free list, a pick is determined by the element taken. *)
Lemma picks_fst_inj l xr1 xr2 :
  NoDup l → xr1 ∈ picks l → xr2 ∈ picks l → xr1.1 = xr2.1 → xr1 = xr2.
Proof.
  intros Hnd H1 H2 Heq.
  apply list_elem_of_lookup in H1 as [i Hi], H2 as [j Hj].
  assert (i = j) as ->.
  { rewrite <- picks_fst in Hnd.
    eapply NoDup_lookup; [exact Hnd| |].
    - rewrite list_lookup_fmap, Hi. reflexivity.
    - rewrite list_lookup_fmap, Hj. simpl. by rewrite Heq. }
  congruence.
Qed.

Lemma permutations_r_submseteq r l p :
  p ∈ permutations_r r l → length p = r ∧ p ⊆+ l.
Proof.
  revert l p. induction r as [|r IH]; intros l p Hin; cbn [permutations_r] in Hin.
  - apply list_elem_of_singleton in Hin as ->. split; [done|].
    apply submseteq_nil_l.
  - apply list_elem_of_bind in Hin as ([x q] & Hp & Hx). simpl in Hp.
    apply list_elem_of_fmap in Hp as (p' & -> & Hp').
    destruct (IH _ _ Hp') as [Hlen Hsub].
    split; [simpl; by rewrite Hlen|].
    rewrite (picks_Permutation _ _ _ Hx). by apply submseteq_skip.
Qed.

Lemma permutations_Permutation l p : p ∈ permutations l → p ≡ₚ l.
Proof.
  intros Hin. apply permutations_r_submseteq in Hin as [Hlen Hsub].
  apply submseteq_length_Permutation; [done|]. by rewrite Hlen.
Qed.

Lemma permutations_r_NoDup r l : NoDup l → NoDup (permutations_r r l).
Proof.
  revert l. induction r as [|r IH]; intros l Hnd; cbn [permutations_r].
  - apply NoDup_singleton.
  - apply NoDup_bind.
    + intros xr1 xr2 p H1 H2 Hp1 Hp2.
      apply list_elem_of_fmap in Hp1 as (p1 & -> & _).
      apply list_elem_of_fmap in Hp2 as (p2 & Heq & _).
      apply (picks_fst_inj l); [done..|]. by inversion Heq.
    + intros [x q] Hx. simpl. apply NoDup_fmap_2; [apply _|].
      apply IH. apply picks_Permutation in Hx. rewrite Hx in Hnd.
      by apply NoDup_cons in Hnd as [_ ?].
    + by apply picks_NoDup.
Qed.

Lemma permutations_NoDup l : NoDup l → NoDup (permutations l).
Proof. apply permutations_r_NoDup. Qed.

Lemma length_bind_const {B C} (f : B → list C) (k : list B) (c : nat) :
  (∀ b, b ∈ k → length (f b) = c) → length (k ≫= f) = (length k * c)%nat.
Proof.
  induction k as [|b k IH]; intros Hf; csimpl; [reflexivity|].
  rewrite length_app, IH, Hf; [reflexivity|by left|].
  intros b' Hb'. apply Hf. by right.
Qed.

Lemma permutations_r_length r l :
  length l = r → length (permutations_r r l) = fact r.
Proof.
  revert l. induction r as [|r IH]; intros l Hlen; cbn [permutations_r].
  - reflexivity.
  - rewrite (length_bind_const _ _ (fact r)).
    + rewrite <- (picks_fst l) in Hlen at 1.
      rewrite length_fmap in Hlen. rewrite Hlen. reflexivity.
    + intros [x q] Hx. simpl. rewrite length_fmap. apply IH.
      apply picks_Permutation, Permutation_length in Hx. simpl in Hx. lia.
Qed.

Lemma permutations_length l : length (permutations l) = fact (length l).
Proof. by apply permutations_r_length. Qed.

End PermutationsFacts.

Lemma factorial_fact (n : nat) : factorial n = Z.of_nat (fact n).
Proof.
  induction n as [|n IH]; [reflexivity|].
  cbn [factorial fact]. rewrite IH. lia.
Qed.

Section AllocatorFacts.
Context {G : Type} `{PyRandom G}.

Lemma layer_order_once (n : nat) (o : list nat) :
  layer_order n o → NoDup o ∧ length o = n ∧ ∀ i, i ∈ o ↔ (i < n)%nat.
Proof.
  unfold layer_order. intros Hp. split_and!.
  - rewrite Hp. apply NoDup_seq.
  - rewrite Hp. apply length_seq.
  - intros i. rewrite Hp, elem_of_seq. lia.
Qed.

Lemma shuffle_until_inv fuel n frames max_attempts seen orders attempts rng :
  loop_inv n frames max_attempts seen orders attempts →
  let '(orders', attempts', _) :=
    Legacy.shuffle_until fuel n frames max_attempts seen orders attempts rng in
  ∃ seen', loop_inv n frames max_attempts seen' orders' attempts'
           ∧ orders `prefix_of` orders'.
Proof.
  revert seen orders attempts rng.
  induction fuel as [|fuel IH]; intros seen orders attempts rng Hinv;
    cbn [Legacy.shuffle_until].
  { by exists seen. }
  destruct (length orders <? frames)%nat eqn:Hlen; [|by exists seen].
  destruct (attempts <? max_attempts) eqn:Hatt; [|by exists seen].
  simpl. apply Nat.ltb_lt in Hlen. apply Z.ltb_lt in Hatt.
  pose proof (Random_shuffle_range n rng) as Hperm.
  destruct (Random_shuffle (range n) rng) as [candidate rng'].
  simpl in Hperm. destruct Hinv as [Hs Hnd Ho Hl Ha].
  destruct (decide (candidate ∈ seen)) as [Hin|Hnin].
  - apply IH. split; auto with lia.
  - specialize (IH ({[candidate]} ∪ seen) (orders ++ [candidate])
                   (attempts + 1) rng').
    destruct (Legacy.shuffle_until _ _ _ _ _ _ _ _) as [[orders' att'] ?].
    destruct IH as (seen' & Hinv' & Hpre).
    + split.
      * intros o. rewrite elem_of_union, elem_of_singleton, elem_of_app,
          list_elem_of_singleton, Hs. tauto.
      * apply NoDup_app. split_and!; [done| |apply NoDup_singleton].
        intros o Ho1 Ho2%list_elem_of_singleton. subst o.
        apply Hnin, Hs, Ho1.
      * apply Forall_app. split; [done|]. by apply Forall_singleton.
      * rewrite length_app. simpl. lia.
      * lia.
    + exists seen'. split; [done|].
      etrans; [|exact Hpre]. by apply prefix_app_r.
Qed.

(** The fuel never decides: when the loop of [build_unique_orders] stops,
    its [while] condition is false. *)
Lemma shuffle_until_exit fuel n frames max_attempts seen orders attempts rng :
  max_attempts - attempts ≤ Z.of_nat fuel →
  let '(orders', attempts', _) :=
    Legacy.shuffle_until fuel n frames max_attempts seen orders attempts rng in
  (length orders' <? frames)%nat && (attempts' <? max_attempts) = false.
Proof.
  revert seen orders attempts rng.
  induction fuel as [|fuel IH]; intros seen orders attempts rng Hfuel;
    cbn [Legacy.shuffle_until].
  { apply andb_false_iff. right. apply Z.ltb_ge. lia. }
  destruct ((length orders <? frames)%nat && (attempts <? max_attempts))
    eqn:Hc; [|exact Hc].
  destruct (Random_shuffle (range n) rng) as [candidate rng'].
  destruct (decide (candidate ∈ seen)); apply IH; lia.
Qed.

Lemma fill_orders_spec fuel n frames orders rng :
  (frames - length orders ≤ fuel)%nat →
  (length orders ≤ frames)%nat →
  ∃ extra,
    (Legacy.fill_orders fuel n frames orders rng).1 = orders ++ extra
    ∧ length (orders ++ extra) = frames
    ∧ Forall (layer_order n) extra.
Proof.
  revert orders rng.
  induction fuel as [|fuel IH]; intros orders rng Hfuel Hle;
    cbn [Legacy.fill_orders].
  { exists []. rewrite app_nil_r. split_and!; [done|lia|done]. }
  destruct (length orders <? frames)%nat eqn:Hlt.
  - apply Nat.ltb_lt in Hlt.
    pose proof (Random_shuffle_range n rng) as Hperm.
    destruct (Random_shuffle (range n) rng) as [cand rng']. simpl in Hperm.
    destruct (IH (orders ++ [cand]) rng') as (extra & Heq & Hlen & Hall).
    { rewrite length_app. simpl. lia. }
    { rewrite length_app. simpl. lia. }
    exists (cand :: extra). rewrite Heq, <- app_assoc. simpl.
    split_and!; [done| |by constructor].
    rewrite <- Hlen, <- app_assoc. reflexivity.
  - apply Nat.ltb_ge in Hlt. exists []. rewrite app_nil_r.
    split_and!; [done|lia|done].
Qed.

(** The enumeration branch: [frames] distinct layer orders. *)
Lemma build_unique_orders_enumerated (n frames : nat) (rng : G) :
  Z.of_nat frames ≤ factorial n → factorial n ≤ Legacy.max_enum →
  let orders := (Legacy.build_unique_orders n frames rng).1 in
  length orders = frames ∧ NoDup orders ∧ Forall (layer_order n) orders.
Proof.
  intros Hf Hmax. unfold Legacy.build_unique_orders.
  apply Z.leb_le in Hf as Hf', Hmax as Hmax'. rewrite Hf', Hmax'. simpl.
  pose proof (Random_shuffle_Permutation (permutations (range n)) rng) as Hp.
  destruct (Random_shuffle (permutations (range n)) rng) as [all_perms' rng'].
  simpl in *.
  assert (NoDup all_perms') as Hnd.
  { rewrite Hp. apply permutations_NoDup, NoDup_seq. }
  split_and!.
  - apply length_take_le. rewrite Hp, permutations_length.
    unfold range. rewrite length_seq. rewrite factorial_fact in Hf. lia.
  - eapply sublist_NoDup; [exact Hnd|apply sublist_take].
  - apply Forall_take. apply Forall_forall. intros o Ho.
    rewrite Hp in Ho. by apply permutations_Permutation in Ho.
Qed.

(** Either branch: at most [frames] distinct layer orders. *)
Lemma build_unique_orders_spec (n frames : nat) (rng : G) :
  let orders := (Legacy.build_unique_orders n frames rng).1 in
  (length orders ≤ frames)%nat ∧ NoDup orders ∧ Forall (layer_order n) orders.
Proof.
  destruct (decide (Z.of_nat frames ≤ factorial n
                    ∧ factorial n ≤ Legacy.max_enum)) as [[Hf Hm]|Hno].
  { destruct (build_unique_orders_enumerated n frames rng Hf Hm) as (?&?&?).
    split_and!; [lia|done..]. }
  unfold Legacy.build_unique_orders.
  destruct ((Z.of_nat frames <=? factorial n)
            && (factorial n <=? Legacy.max_enum)) eqn:Hc.
  { apply andb_true_iff in Hc as [?%Z.leb_le ?%Z.leb_le]. tauto. }
  set (max_attempts := Z.max 1000 (Z.of_nat frames * 50)).
  pose proof (shuffle_until_inv (Z.to_nat max_attempts) n frames max_attempts
                ∅ [] 0 rng) as Hinv.
  destruct (Legacy.shuffle_until _ _ _ _ _ _ _ _) as [[orders att] rng'].
  destruct Hinv as (seen' & [] & _).
  { split; [set_solver|constructor|constructor|simpl; lia|lia]. }
  simpl. done.
Qed.

Lemma main_orders_spec (n frames : nat) (rng : G) :
  ∃ extra,
    (Legacy.main_orders n frames rng).1
    = (Legacy.build_unique_orders n frames rng).1 ++ extra
    ∧ length ((Legacy.build_unique_orders n frames rng).1 ++ extra) = frames
    ∧ Forall (layer_order n) extra.
Proof.
  unfold Legacy.main_orders.
  destruct (build_unique_orders_spec n frames rng) as (Hle & _ & _).
  destruct (Legacy.build_unique_orders n frames rng) as [orders rng'].
  simpl in *.
  destruct (length orders <? frames)%nat eqn:Hlt.
  - apply fill_orders_spec; lia.
  - apply Nat.ltb_ge in Hlt. exists []. rewrite app_nil_r.
    split_and!; [done|lia|done].
Qed.

End AllocatorFacts.

Section PasteFacts.
Context {G : Type} `{PyRandom G} {R : Resampler}.

Lemma clip_axis (p src_len dest_len : Z) :
  clip_start p < clip_end p src_len dest_len →
  0 ≤ clip_start p ∧ clip_end p src_len dest_len ≤ src_len
  ∧ 0 ≤ clip_dst p
  ∧ clip_dst p + (clip_end p src_len dest_len - clip_start p) ≤ dest_len
  ∧ clip_dst p - clip_start p = p.
Proof.
  unfold clip_start, clip_dst, clip_end.
  destruct (p <? 0) eqn:E1; [apply Z.ltb_lt in E1|apply Z.ltb_ge in E1];
    (destruct (p + src_len >? dest_len) eqn:E2;
     [apply Z.gtb_lt in E2
     |pose proof (Zgt_cases (p + src_len) dest_len) as C; rewrite E2 in C]);
    lia.
Qed.

(** An empty clip on an axis: no coordinate is both in the destination and
    under the source. *)
Lemma clip_axis_empty (p src_len dest_len x : Z) :
  clip_end p src_len dest_len ≤ clip_start p →
  0 ≤ x < dest_len → p ≤ x < p + src_len → False.
Proof.
  unfold clip_start, clip_end.
  destruct (p <? 0) eqn:E1; [apply Z.ltb_lt in E1|apply Z.ltb_ge in E1];
    (destruct (p + src_len >? dest_len) eqn:E2;
     [apply Z.gtb_lt in E2
     |pose proof (Zgt_cases (p + src_len) dest_len) as C; rewrite E2 in C]);
    lia.
Qed.

(** What one call of [paste_with_center] does to the world. *)
Lemma paste_with_center_run (w : World G) (dest src : ref) (d s : Image)
    (center_x center_y : Z) :
  images w !! dest = Some d → images w !! src = Some s →
  let paste_x := center_x - width s / 2 in
  let paste_y := center_y - height s / 2 in
  let src_left := clip_start paste_x in
  let src_top := clip_start paste_y in
  let src_right := clip_end paste_x (width s) (width d) in
  let src_bottom := clip_end paste_y (height s) (height d) in
  paste_with_center dest src center_x center_y w
  = if (src_left >=? src_right) || (src_top >=? src_bottom)
    then Ok (tt, w)
    else
      let c := crop_image s src_left src_top src_right src_bottom in
      let r := fresh (dom (images w)) in
      let mask := if decide (mode s = RGBA) then Some c else None in
      Ok (tt, mkWorld
                (<[dest := paste_image d c (clip_dst paste_x) (clip_dst paste_y) mask]>
                   (<[r := c]> (images w)))
                (random_inst w)).
Proof.
  intros Hd Hs. cbv zeta.
  unfold paste_with_center, load. unfold_M. rewrite Hd, Hs. cbn [size].
  fold (clip_start (center_x - width s / 2)).
  fold (clip_start (center_y - height s / 2)).
  fold (clip_dst (center_x - width s / 2)).
  fold (clip_dst (center_y - height s / 2)).
  fold (clip_end (center_x - width s / 2) (width s) (width d)).
  fold (clip_end (center_y - height s / 2) (height s) (height d)).
  destruct (_ || _) eqn:Hc; [reflexivity|].
  apply orb_false_iff in Hc as [Hx Hy].
  rewrite Z.geb_leb in Hx, Hy. apply Z.leb_gt in Hx, Hy.
  unfold Image_crop, Image_paste, load, alloc, store. unfold_M. rewrite Hs.
  destruct (_ <? clip_start (center_x - _)) eqn:E1;
    [apply Z.ltb_lt in E1; lia|].
  destruct (_ <? clip_start (center_y - _)) eqn:E2;
    [apply Z.ltb_lt in E2; lia|].
  assert (fresh (dom (images w)) ≠ dest) as Hne.
  { intros Heq. apply (is_fresh (dom (images w))). rewrite Heq.
    apply elem_of_dom. eauto. }
  cbn [images random_inst]. rewrite lookup_insert_eq. cbn [mode crop_image].
  destruct (decide (mode s = RGBA)) as [Hm|Hm];
    repeat (cbn [images random_inst andb fst snd];
            first [rewrite lookup_insert_eq
                  |rewrite lookup_insert_ne by done
                  |rewrite Hd
                  |rewrite Z.eqb_refl]);
    reflexivity.
Qed.

End PasteFacts.

Section PasteTheorems.
Context {G : Type} `{PyRandom G} {R : Resampler}.

Lemma inside_true (x0 y0 x1 y1 x y : Z) :
  inside x0 y0 x1 y1 x y = true ↔ (x0 ≤ x < x1 ∧ y0 ≤ y < y1).
Proof.
  unfold inside. rewrite !andb_true_iff, !Z.leb_le, !Z.ltb_lt. lia.
Qed.

(** C2. Whatever the centre, [paste_with_center] returns normally; the
    destination keeps its mode and size, every coordinate outside the
    destination's bounds keeps its content, and when source and
    destination do not overlap the world is left exactly as it was. *)
Theorem paste_with_center_never_raises_nor_writes_outside
    (w : World G) (dest src : ref) (d s : Image) (center_x center_y : Z) :
  images w !! dest = Some d → images w !! src = Some s →
  ∃ w' d',
    paste_with_center dest src center_x center_y w = Ok (tt, w')
    ∧ images w' !! dest = Some d'
    ∧ mode d' = mode d ∧ size d' = size d
    ∧ (∀ x y, ¬ in_bounds d x y → getpixel d' x y = getpixel d x y)
    ∧ (no_overlap d s center_x center_y → w' = w).
Proof.
  intros Hd Hs.
  rewrite (paste_with_center_run w dest src d s center_x center_y Hd Hs).
  cbv zeta.
  set (px := center_x - width s / 2). set (py := center_y - height s / 2).
  destruct (_ || _) eqn:Hc.
  { exists w, d. split_and!; done. }
  apply orb_false_iff in Hc as [Hx Hy].
  rewrite Z.geb_leb in Hx, Hy. apply Z.leb_gt in Hx, Hy.
  destruct (clip_axis px (width s) (width d) Hx) as (Hx1 & Hx2 & Hx3 & Hx4 & Hx5).
  destruct (clip_axis py (height s) (height d) Hy) as (Hy1 & Hy2 & Hy3 & Hy4 & Hy5).
  eexists _, _. split; [reflexivity|]. cbn [images].
  rewrite lookup_insert_eq. split_and!; [reflexivity..| |].
  - intros x y Hout. cbn [getpixel paste_image width height crop_image].
    destruct (inside _ _ _ _ x y) eqn:Hin; [|reflexivity].
    apply inside_true in Hin. exfalso. apply Hout.
    unfold in_bounds. lia.
  - intros Hno. exfalso.
    apply (Hno (clip_dst px) (clip_dst py)); unfold in_bounds;
      fold px; fold py; lia.
Qed.

(** A live object other than the destination is not touched by the two
    updates of a paste: the new crop and the write to the destination. *)
Lemma lookup_paste_other (m : gmap ref Image) (dst r : ref) (v c im : Image) :
  r ≠ dst → m !! r = Some im →
  <[dst := v]> (<[fresh (dom m) := c]> m) !! r = Some im.
Proof.
  intros Hr Hl. rewrite lookup_insert_ne by done.
  rewrite lookup_insert_ne; [done|].
  intros Heq. apply (is_fresh (dom m)). rewrite Heq.
  apply elem_of_dom. eauto.
Qed.

(** C9, on distinct objects: [paste_with_center] leaves the source raster,
    and every live object other than the destination, as it was. *)
Theorem paste_with_center_keeps_distinct_src
    (w : World G) (dest src : ref) (d s : Image) (center_x center_y : Z) :
  images w !! dest = Some d → images w !! src = Some s → dest ≠ src →
  ∃ w',
    paste_with_center dest src center_x center_y w = Ok (tt, w')
    ∧ images w' !! src = Some s
    ∧ (∀ r im, r ≠ dest → images w !! r = Some im → images w' !! r = Some im).
Proof.
  intros Hd Hs Hne.
  rewrite (paste_with_center_run w dest src d s center_x center_y Hd Hs).
  cbv zeta. destruct (_ || _).
  { exists w. split_and!; done. }
  eexists. split; [reflexivity|]. cbn [images].
  split; [|intros r im Hr Hl]; by apply lookup_paste_other.
Qed.

End PasteTheorems.

Lemma paste_with_center_never_raises_nor_writes_outside_witness :
  ∃ w' d',
    paste_with_center 0%nat 1%nat 1000 (-1000) (two_images 0) = Ok (tt, w')
    ∧ images w' !! 0%nat = Some d'
    ∧ mode d' = mode red_blue ∧ size d' = size red_blue
    ∧ (∀ x y, ¬ in_bounds red_blue x y → getpixel d' x y = getpixel red_blue x y)
    ∧ (no_overlap red_blue green_dot 1000 (-1000) → w' = two_images 0).
Proof.
  apply (paste_with_center_never_raises_nor_writes_outside
           (two_images 0) 0%nat 1%nat red_blue green_dot 1000 (-1000));
    reflexivity.
Defined.

Lemma paste_with_center_keeps_distinct_src_witness :
  ∃ w',
    paste_with_center 0%nat 1%nat 1 0 (two_images 0) = Ok (tt, w')
    ∧ images w' !! 1%nat = Some green_dot
    ∧ (∀ r im, r ≠ 0%nat → images (two_images 0) !! r = Some im →
               images w' !! r = Some im).
Proof.
  apply (paste_with_center_keeps_distinct_src
           (two_images 0) 0%nat 1%nat red_blue green_dot 1 0);
    [reflexivity | reflexivity | discriminate].
Defined.

(** C9 as stated fails when one object is passed as both arguments: pasting
    [red_blue] onto itself, centred on [(2, 0)], overwrites its blue pixel
    with its red one, so the raster passed as [src] has changed. *)
Lemma paste_with_center_same_object_changes_src :
  ∃ w' im',
    paste_with_center 0%nat 0%nat 2 0 (one_image 0) = Ok (tt, w')
    ∧ images (one_image 0) !! 0%nat = Some red_blue
    ∧ images w' !! 0%nat = Some im'
    ∧ getpixel red_blue 1 0 = [0; 0; 255]
    ∧ getpixel im' 1 0 = [255; 0; 0].
Proof.
  rewrite (paste_with_center_run (one_image 0) 0%nat 0%nat red_blue red_blue 2 0
             eq_refl eq_refl).
  eexists _, _. split; [reflexivity|]. cbn [images].
  rewrite lookup_insert_eq. split_and!; reflexivity.
Qed.

Section SamplerTheorems.
Context {G : Type} `{PyRandom G}.

(** C3. On valid geometry the sampler returns, and the box it returns lies
    inside the image. *)
Theorem sampled_box_inside_image (img_w img_h tile_w tile_h : Z) (w : World G) :
  0 < tile_w ≤ img_w → 0 < tile_h ≤ img_h →
  ∃ left_ top_ center_x center_y w',
    choose_random_tile_position img_w img_h tile_w tile_h w
    = Ok ((left_, top_, center_x, center_y), w')
    ∧ 0 ≤ left_ ∧ 0 ≤ top_
    ∧ left_ + tile_w ≤ img_w ∧ top_ + tile_h ≤ img_h.
Proof.
  intros Hw Hh.
  destruct (choose_random_tile_position_valid img_w img_h tile_w tile_h w Hw Hh)
    as (l & t & g' & Hrun & Hl & Ht).
  exists l, t, (l + tile_w / 2), (t + tile_h / 2), (mkWorld (images w) g').
  split; [exact Hrun|]. lia.
Qed.

(** C7. On valid geometry the returned centre is the corner plus the floor
    of half the tile size.  The convention is not symmetric on an even
    size: the centre column then has one more column of the box before it
    than after it (and likewise for rows), while on an odd size it has as
    many on either side. *)
Theorem sampled_center_floor_half (img_w img_h tile_w tile_h : Z) (w : World G) :
  0 < tile_w ≤ img_w → 0 < tile_h ≤ img_h →
  ∃ left_ top_ center_x center_y w',
    choose_random_tile_position img_w img_h tile_w tile_h w
    = Ok ((left_, top_, center_x, center_y), w')
    ∧ center_x = left_ + tile_w / 2
    ∧ center_y = top_ + tile_h / 2
    ∧ (center_x - left_) - (left_ + tile_w - 1 - center_x)
      = (if Z.even tile_w then 1 else 0)
    ∧ (center_y - top_) - (top_ + tile_h - 1 - center_y)
      = (if Z.even tile_h then 1 else 0).
Proof.
  intros Hw Hh.
  destruct (choose_random_tile_position_valid img_w img_h tile_w tile_h w Hw Hh)
    as (l & t & g' & Hrun & Hl & Ht).
  exists l, t, (l + tile_w / 2), (t + tile_h / 2), (mkWorld (images w) g').
  split; [exact Hrun|]. split; [reflexivity|]. split; [reflexivity|].
  split.
  - pose proof (Zdiv2_odd_eqn tile_w) as E. rewrite Z.div2_div in E.
    rewrite <- Z.negb_even in E. destruct (Z.even tile_w); simpl in E; lia.
  - pose proof (Zdiv2_odd_eqn tile_h) as E. rewrite Z.div2_div in E.
    rewrite <- Z.negb_even in E. destruct (Z.even tile_h); simpl in E; lia.
Qed.

End SamplerTheorems.

Lemma sampled_box_inside_image_witness :
  ∃ left_ top_ center_x center_y w',
    choose_random_tile_position 100 100 20 20 (one_image 7)
    = Ok ((left_, top_, center_x, center_y), w')
    ∧ 0 ≤ left_ ∧ 0 ≤ top_ ∧ left_ + 20 ≤ 100 ∧ top_ + 20 ≤ 100.
Proof. apply (sampled_box_inside_image 100 100 20 20 (one_image 7)); lia. Defined.

Lemma sampled_center_floor_half_witness :
  ∃ left_ top_ center_x center_y w',
    choose_random_tile_position 100 100 20 15 (one_image 7)
    = Ok ((left_, top_, center_x, center_y), w')
    ∧ center_x = left_ + 20 / 2
    ∧ center_y = top_ + 15 / 2
    ∧ (center_x - left_) - (left_ + 20 - 1 - center_x) = 1
    ∧ (center_y - top_) - (top_ + 15 - 1 - center_y) = 0.
Proof. apply (sampled_center_floor_half 100 100 20 15 (one_image 7)); lia. Defined.

(** C7 as stated fails in what it says of even sizes: the centre is not
    toward the top-left.  For a 20 by 20 tile with corner [(0, 21)] the
    sampler returns the centre [(10, 31)]: ten columns of the box lie before
    column 10 and nine after it, and likewise for the rows, so the centre
    is the first pixel past the middle, toward the bottom-right. *)
Lemma sampled_center_past_middle_on_even_size :
  ∃ w',
    choose_random_tile_position 100 100 20 20 (one_image 7)
    = Ok ((0, 21, 10, 31), w')
    ∧ ¬ toward_top_left 0 21 20 20 10 31.
Proof.
  eexists. split; [vm_compute; reflexivity|].
  unfold toward_top_left. lia.
Qed.

(** C4 fails on the code: the renderer never looks at the sign of [scale].
    From the raster (red, blue), with the box [(0, 0, 2, 1)]: at scale
    [-1.5] the products are [-3.0] and [-1.5], both sizes are clamped to
    one and a 1 by 1 raster is returned; at scale [0.0] likewise; at scale
    [-1.5e308] the first product is beyond the floats and the call raises,
    but the [OverflowError] of [round], after the crop.  [rescale_image]
    of the same module rejects [scale <= 0] before this very arithmetic. *)
Theorem crop_and_scale_tile_accepts_nonpositive_scale :
  (-1.5 <=? 0)%float = true
  ∧ (∃ tile w' t,
       crop_and_scale_tile 0%nat 0 0 2 1 (-1.5) (one_image 0) = Ok (tile, w')
       ∧ images w' !! tile = Some t
       ∧ size t = (1, 1))
  ∧ is_Ok (crop_and_scale_tile 0%nat 0 0 2 1 0 (one_image 0))
  ∧ crop_and_scale_tile 0%nat 0 0 2 1 (-1.5e308) (one_image 0)
    = Raise (OverflowError "cannot convert float infinity to integer").
Proof.
  split; [vm_compute; reflexivity|]. split.
  - eexists _, _, _. split; [vm_compute; reflexivity|].
    split; [vm_compute; reflexivity|]. reflexivity.
  - split; [exact I|]. vm_compute. reflexivity.
Qed.

(** A product by the float zero is a zero, of either sign. *)
Lemma zero_mul_unit_interval (r : float) :
  (0 <=? r)%float = true → (r <? 1)%float = true →
  (0 * r = 0 ∨ 0 * r = -0)%float.
Proof.
  intros H0 H1. rewrite leb_spec in H0. rewrite ltb_spec in H1.
  assert (Prim2SF (0 * r) = S754_zero false
          ∨ Prim2SF (0 * r) = S754_zero true) as Hz.
  { rewrite mul_spec. change (Prim2SF 0) with (S754_zero false).
    destruct (Prim2SF r) as [s|s| |s m e]; try discriminate.
    - destruct s; [right|left]; reflexivity.
    - destruct s; discriminate.
    - destruct s; [right|left]; reflexivity. }
  destruct Hz as [Hz|Hz]; [left|right]; apply Prim2SF_inj; rewrite Hz;
    reflexivity.
Qed.

Section CompositorFacts.
Context {G : Type} `{PyRandom G} {R : Resampler}.

(** A range of one point [a] yields [a]: [a - a] is zero, its product with
    the draw is a zero, and adding a zero to [a] gives [a].  The three
    facts about [a] hold for every finite [a] but the negative zero; they
    are checked by evaluation where the lemma is used. *)
Lemma Random_uniform_same (a : float) (g : G) :
  (a - a = 0)%float → (a + 0 = a)%float → (a + -0 = a)%float →
  (Random_uniform a a g).1 = a.
Proof.
  intros Hsub Hp Hn. unfold Random_uniform.
  pose proof (random_float_range g) as [H0 H1].
  destruct (random_float g) as [r g']. cbn [fst] in *. rewrite Hsub.
  destruct (zero_mul_unit_interval r H0 H1) as [-> | ->]; assumption.
Qed.

(** One 1 by 1 tile at scale 1 from the raster (red, blue), on white.
    Whatever the generator, the resampling kernel and the state of [rng],
    the top-left pixel of the canvas is decided by the first draw of the
    module-level generator: red when that draw is 0, white otherwise. *)
Lemma build_layered_tiles_one_tile (g rng : G) :
  pixel_of_canvas
    (build_layered_tiles 0%nat 1 1 1 1 1 "white" rng (one_image g)) 0 0
  = Some (if (randbelow 2 g).1 =? 0 then [255; 0; 0] else [255; 255; 255]).
Proof.
  unfold build_layered_tiles, load, one_image. unfold_M. cbn [images].
  rewrite lookup_singleton_eq. cbn [size red_blue width height].
  change (Z.to_nat 1) with 1%nat. cbn [sample_placements]. unfold_M.
  rewrite (choose_random_tile_position_draws 2 1 1 1) by lia.
  change (2 - 1 + 1 - 0) with 2. change (1 - 1 + 1 - 0) with 1.
  cbn [random_inst images].
  pose proof (randbelow_range 2 g ltac:(lia)) as Hl.
  destruct (randbelow 2 g) as [l g1]. cbn [fst] in *.
  pose proof (randbelow_range 1 g1 ltac:(lia)) as Ht.
  destruct (randbelow 1 g1) as [t g2]. cbn [fst] in *.
  assert (t = 0) as -> by lia.
  pose proof (Random_uniform_same 1 rng eq_refl eq_refl eq_refl) as Hsc.
  destruct (Random_uniform 1 1 rng) as [sc rng']. cbn [fst] in Hsc. subst sc.
  assert (l = 0 ∨ l = 1) as [-> | ->] by lia.
  - vm_compute. reflexivity.
  - vm_compute. reflexivity.
Qed.

End CompositorFacts.

(** C1 fails on the toolkit: two runs of [build_layered_tiles] on the same
    source and configuration, each with a fresh generator seeded with 42,
    differ in the top-left pixel of the canvas when the module-level
    generator is in two different states.  The tile position is drawn by
    [random.randint], not from [rng]. *)
Theorem build_layered_tiles_follows_module_generator :
  let run (ambient : Z) :=
    build_layered_tiles 0%nat 1 1 1 1 1 "white" (Random_seed 42)
      (one_image ambient) in
  pixel_of_canvas (run 0) 0 0 = Some [255; 255; 255]
  ∧ pixel_of_canvas (run 1) 0 0 = Some [255; 0; 0].
Proof. split; vm_compute; reflexivity. Qed.

Section AllocatorTheorems.
Context {G : Type} `{PyRandom G}.

(** When [build_unique_orders] leaves its fallback loop, it has collected
    [frames] orders or has used the whole budget of
    [max(1000, frames * 50)] shuffles, and never more than the budget. *)
Lemma fallback_stops_at_budget (n frames : nat) (rng : G) :
  let max_attempts := Z.max 1000 (Z.of_nat frames * 50) in
  let '(orders, attempts, _) :=
    Legacy.shuffle_until (Z.to_nat max_attempts) n frames max_attempts
      ∅ [] 0 rng in
  attempts ≤ max_attempts
  ∧ (length orders = frames ∨ attempts = max_attempts).
Proof.
  intros max_attempts.
  pose proof (shuffle_until_inv (Z.to_nat max_attempts) n frames max_attempts
                ∅ [] 0 rng) as Hinv.
  pose proof (shuffle_until_exit (Z.to_nat max_attempts) n frames max_attempts
                ∅ [] 0 rng) as Hexit.
  destruct (Legacy.shuffle_until _ _ _ _ _ _ _ _) as [[orders att] rng'].
  destruct Hinv as (seen' & [] & _).
  { split; [set_solver|constructor|constructor|simpl; lia|lia]. }
  specialize (Hexit ltac:(lia)).
  apply andb_false_iff in Hexit as [Hl%Nat.ltb_ge | Ha%Z.ltb_ge]; lia.
Qed.

(** C5. With [frames <= tiles_n!] and [tiles_n!] no larger than the
    enumeration ceiling, the allocator returns exactly [frames] orders, no
    two of them equal, each a layer order of [tiles_n] tiles; [main] adds
    nothing to them. *)
Theorem enumerated_orders_pairwise_distinct (tiles_n frames : nat) (rng : G) :
  Z.of_nat frames ≤ factorial tiles_n →
  factorial tiles_n ≤ Legacy.max_enum →
  let orders := (Legacy.build_unique_orders tiles_n frames rng).1 in
  length orders = frames
  ∧ (∀ i j o, orders !! i = Some o → orders !! j = Some o → i = j)
  ∧ Forall (layer_order tiles_n) orders
  ∧ (Legacy.main_orders tiles_n frames rng).1 = orders.
Proof.
  intros Hf Hmax orders.
  destruct (build_unique_orders_enumerated tiles_n frames rng Hf Hmax)
    as (Hlen & Hnd & Hall).
  fold orders in Hlen, Hnd, Hall.
  split_and!; [done|by apply NoDup_alt|done|].
  unfold Legacy.main_orders. subst orders.
  destruct (Legacy.build_unique_orders tiles_n frames rng) as [os rng'].
  simpl in *. rewrite Hlen, Nat.ltb_irrefl. reflexivity.
Qed.

(** C6. The orders [main] paints with are exactly [frames] many: those of
    [build_unique_orders], followed by as many further shuffles of
    [range(tiles_n)] as were missing.  Orders are missing only after the
    fallback loop has used its whole budget of [max(1000, frames * 50)]
    shuffles. *)
Theorem main_orders_exactly_frames (tiles_n frames : nat) (rng : G) :
  let unique := (Legacy.build_unique_orders tiles_n frames rng).1 in
  let max_attempts := Z.max 1000 (Z.of_nat frames * 50) in
  ∃ extra,
    (Legacy.main_orders tiles_n frames rng).1 = unique ++ extra
    ∧ length (Legacy.main_orders tiles_n frames rng).1 = frames
    ∧ length extra = (frames - length unique)%nat
    ∧ Forall (layer_order tiles_n) extra
    ∧ ((length unique < frames)%nat →
       (Legacy.shuffle_until (Z.to_nat max_attempts) tiles_n frames
          max_attempts ∅ [] 0 rng).1.2 = max_attempts).
Proof.
  intros unique max_attempts.
  destruct (main_orders_spec tiles_n frames rng) as (extra & Heq & Hlen & Hall).
  fold unique in Heq, Hlen.
  exists extra. rewrite Heq. split_and!; [done|done| |done|].
  { rewrite length_app in Hlen. lia. }
  intros Hshort.
  pose proof (fallback_stops_at_budget tiles_n frames rng) as Hstop.
  cbv zeta in Hstop. fold max_attempts in Hstop.
  subst unique. unfold Legacy.build_unique_orders in Hshort.
  destruct ((Z.of_nat frames <=? factorial tiles_n)
            && (factorial tiles_n <=? Legacy.max_enum)) eqn:Hc.
  - exfalso. apply andb_true_iff in Hc as [Hf%Z.leb_le Hm%Z.leb_le].
    destruct (build_unique_orders_enumerated tiles_n frames rng Hf Hm)
      as (Hl & _).
    unfold Legacy.build_unique_orders in Hl.
    apply Z.leb_le in Hf, Hm. rewrite Hf, Hm in Hl. simpl in Hl. lia.
  - fold max_attempts in Hshort.
    destruct (Legacy.shuffle_until _ _ _ _ _ _ _ _) as [[orders att] rng'].
    simpl in *. lia.
Qed.

(** C10. Every order the allocator returns, from the enumeration or from
    the shuffles, and every order [main] adds, is a permutation of
    [range(tiles_n)]: it has no repeated entry, its entries are the tile
    indices, and each tile index occurs in it once. *)
Theorem every_order_is_a_permutation (tiles_n frames : nat) (rng : G) :
  let once (o : list nat) :=
    o ≡ₚ seq 0 tiles_n ∧ NoDup o
    ∧ (∀ i, i ∈ o ↔ (i < tiles_n)%nat)
    ∧ (∀ i, (i < tiles_n)%nat → count_occ Nat.eq_dec o i = 1%nat) in
  Forall once (Legacy.build_unique_orders tiles_n frames rng).1
  ∧ Forall once (Legacy.main_orders tiles_n frames rng).1.
Proof.
  intros once.
  assert (∀ o, layer_order tiles_n o → once o) as Honce.
  { intros o Ho. destruct (layer_order_once _ _ Ho) as (Hnd & _ & Hin).
    split_and!; [exact Ho|exact Hnd|exact Hin|].
    intros i Hi. apply NoDup_count_occ'.
    - by apply NoDup_ListNoDup.
    - apply list_elem_of_In, Hin, Hi. }
  destruct (build_unique_orders_spec tiles_n frames rng) as (_ & _ & Hall).
  destruct (main_orders_spec tiles_n frames rng) as (extra & Heq & _ & Hextra).
  split.
  - eapply Forall_impl; [exact Hall|exact Honce].
  - rewrite Heq. apply Forall_app. split;
      (eapply Forall_impl; [eassumption|exact Honce]).
Qed.

End AllocatorTheorems.

Lemma enumerated_orders_pairwise_distinct_witness :
  let orders := (Legacy.build_unique_orders 4 10 (Random_seed 42)).1 in
  length orders = 10%nat
  ∧ (∀ i j o, orders !! i = Some o → orders !! j = Some o → i = j)
  ∧ Forall (layer_order 4) orders
  ∧ (Legacy.main_orders 4 10 (Random_seed 42)).1 = orders.
Proof.
  apply (enumerated_orders_pairwise_distinct 4 10 (Random_seed 42));
    discriminate.
Defined.

Section EaseTheorems.
Context {Lm : Libm}.

(** C8, as the code has it.  In binary64 the ease function is exactly 0 at
    0 and exactly 1 at 1.  At one half it is not one half: the float
    [math.pi * 0.5] is not the real number pi / 2, its cosine is about
    6.1e-17 and not zero, and [1 - 6.1e-17] rounds to the float just below
    one, so the result is 0.49999999999999994, the float just below one
    half.  Over the real numbers the same expression satisfies all three
    equations. *)
Theorem ease_smooth_sine_boundaries :
  Legacy.ease_smooth_sine 0 = 0%float
  ∧ Legacy.ease_smooth_sine 1 = 1%float
  ∧ Legacy.ease_smooth_sine 0.5 = 0.49999999999999994%float
  ∧ Legacy.ease_smooth_sine 0.5 = next_down 0.5
  ∧ (Legacy.ease_real 0 = 0 ∧ Legacy.ease_real 1 = 1
     ∧ Legacy.ease_real 0.5 = 0.5)%R.
Proof.
  unfold Legacy.ease_smooth_sine, Legacy.ease_real. split_and!.
  - change (math_pi * 0)%float with 0%float. rewrite cos_zero. reflexivity.
  - change (math_pi * 1)%float with math_pi. rewrite cos_pi. reflexivity.
  - rewrite cos_half_pi. reflexivity.
  - rewrite cos_half_pi. reflexivity.
  - rewrite Rmult_0_r, cos_0. lra.
  - rewrite Rmult_1_r, cos_PI. lra.
  - replace (PI * 0.5)%R with (PI / 2)%R by lra. rewrite cos_PI2. lra.
Qed.

End EaseTheorems.

(** C8 as stated fails on the code at one half: the floats
    [ease_smooth_sine(0.5)] and [0.5] differ. *)
Lemma ease_smooth_sine_half_is_not_half :
  (Legacy.ease_smooth_sine 0.5 =? 0.5)%float = false
  ∧ Legacy.ease_smooth_sine 0.5 ≠ 0.5%float.
Proof.
  split; [vm_compute; reflexivity|].
  intros E. apply (f_equal (λ x, (x =? 0.5)%float)) in E.
  vm_compute in E. discriminate.
Qed.

(** * Further properties *)

Section StoreFacts.
Context {G : Type} `{PyRandom G} {R : Resampler} {C : ImageColor}.

Lemma extends_refl (w : World G) : extends w w.
Proof. intros r im Hr. exact Hr. Qed.

Lemma extends_trans (w1 w2 w3 : World G) :
  extends w1 w2 → extends w2 w3 → extends w1 w3.
Proof. intros H12 H23 r im Hr. apply H23, H12, Hr. Qed.

Lemma fresh_not_live (w : World G) : images w !! fresh (dom (images w)) = None.
Proof. apply not_elem_of_dom, is_fresh. Qed.

(** What [alloc] does: the new object sits at a reference that was free,
    nothing else moves, the generator is left alone. *)
Lemma alloc_spec (im : Image) (w : World G) :
  ∃ r w',
    alloc im w = Ok (r, w')
    ∧ images w !! r = None
    ∧ images w' = <[r := im]> (images w)
    ∧ random_inst w' = random_inst w
    ∧ extends w w'.
Proof.
  eexists _, _. split; [reflexivity|]. cbn [images random_inst].
  split_and!; [apply fresh_not_live|reflexivity|reflexivity|].
  intros r' im' Hr'. cbn [images]. rewrite lookup_insert_ne; [done|].
  intros <-. rewrite fresh_not_live in Hr'. discriminate.
Qed.

Lemma Image_crop_spec (r : ref) (im : Image) (x0 y0 x1 y1 : Z) (w : World G) :
  images w !! r = Some im → x0 ≤ x1 → y0 ≤ y1 →
  Image_crop r (x0, y0, x1, y1) w = alloc (crop_image im x0 y0 x1 y1) w.
Proof.
  intros Hr Hx Hy. unfold Image_crop, load. unfold_M. rewrite Hr.
  destruct (x1 <? x0) eqn:E1; [apply Z.ltb_lt in E1; lia|].
  destruct (y1 <? y0) eqn:E2; [apply Z.ltb_lt in E2; lia|].
  reflexivity.
Qed.

Lemma Image_new_spec (m : Mode) (sz : Z * Z) (c : string) (p : Pixel)
    (w : World G) :
  getcolor c m = Some p →
  Image_new m sz (ColorName c) w = alloc (new_image m sz p) w.
Proof. intros Hc. unfold Image_new. rewrite Hc. reflexivity. Qed.

Lemma Image_new_unknown (m : Mode) (sz : Z * Z) (c : string) (w : World G) :
  getcolor c m = None →
  ∃ msg, Image_new m sz (ColorName c) w = Raise (ValueError msg).
Proof. intros Hc. unfold Image_new. rewrite Hc. eexists. reflexivity. Qed.

(** A size that is the image's own is not looked at any further. *)
Lemma Image_resize_same (r : ref) (im : Image) (w : World G) :
  images w !! r = Some im →
  Image_resize r (width im, height im) w = alloc im w.
Proof.
  intros Hr. unfold Image_resize, load. unfold_M. rewrite Hr. cbn [fst snd].
  by rewrite !Z.eqb_refl.
Qed.

(** A size beyond a C [int] that is not the image's own raises. *)
Lemma Image_resize_overflow (r : ref) (im : Image) (a b : Z) (w : World G) :
  images w !! r = Some im → width im ≤ INT_MAX → height im ≤ INT_MAX →
  INT_MAX < a ∨ INT_MAX < b →
  ∃ msg, Image_resize r (a, b) w = Raise (OverflowError msg).
Proof.
  intros Hr Hw Hh Hab. unfold Image_resize, load. unfold_M. rewrite Hr.
  cbn [fst snd].
  destruct ((a =? width im) && (b =? height im)) eqn:E.
  { apply andb_true_iff in E as [Ea%Z.eqb_eq Eb%Z.eqb_eq]. lia. }
  destruct ((INT_MAX <? a) || (INT_MAX <? b)) eqn:E1.
  { cbn [orb]. eexists. reflexivity. }
  apply orb_false_iff in E1 as [Ea%Z.ltb_ge Eb%Z.ltb_ge]. lia.
Qed.

Lemma Image_resize_spec (r : ref) (im : Image) (a b : Z) (w : World G) :
  images w !! r = Some im → 1 ≤ a ≤ INT_MAX → 1 ≤ b ≤ INT_MAX →
  ∃ im',
    Image_resize r (a, b) w = alloc im' w
    ∧ mode im' = mode im ∧ size im' = (a, b)
    ∧ (size im = (a, b) → im' = im).
Proof.
  intros Hr Ha Hb. unfold Image_resize, load. unfold_M. rewrite Hr.
  cbn [fst snd].
  destruct ((a =? width im) && (b =? height im)) eqn:E.
  - apply andb_true_iff in E as [Ea%Z.eqb_eq Eb%Z.eqb_eq].
    exists im. split_and!; [reflexivity|reflexivity| |done].
    unfold size. congruence.
  - assert ((INT_MAX <? a) || (INT_MAX <? b) || (a <? - INT_MAX - 1)
            || (b <? - INT_MAX - 1) = false) as ->.
    { unfold INT_MAX in *. repeat (apply orb_false_intro); apply Z.ltb_ge; lia. }
    assert ((a <? 1) || (b <? 1) = false) as ->
      by (apply orb_false_intro; apply Z.ltb_ge; lia).
    exists (resample im a b).
    split_and!; [reflexivity|apply resample_mode| |].
    + unfold size. by rewrite resample_width, resample_height.
    + intros Hsz. unfold size in Hsz. injection Hsz as Hw Hh.
      rewrite Hw, Hh, !Z.eqb_refl in E. discriminate.
Qed.

End StoreFacts.

(** A scaled size is at least one pixel. *)
Lemma scaled_size_pos (n m : Z) (sc : float) :
  scaled_size n sc = Ok m → 1 ≤ m.
Proof.
  unfold scaled_size. destruct (float_of_int n); [|discriminate].
  destruct (py_round _); [|discriminate]. intros [= <-]. lia.
Qed.

Lemma renders_sizes (tw th : Z) (sc : float) :
  renders tw th sc = true →
  ∃ new_w new_h,
    scaled_size tw sc = Ok new_w ∧ scaled_size th sc = Ok new_h
    ∧ 1 ≤ new_w ≤ INT_MAX ∧ 1 ≤ new_h ≤ INT_MAX.
Proof.
  unfold renders.
  destruct (scaled_size tw sc) as [nw|] eqn:Ew; [|discriminate].
  destruct (scaled_size th sc) as [nh|] eqn:Eh; [|discriminate].
  intros [Hw%Z.leb_le Hh%Z.leb_le]%andb_true_iff.
  apply scaled_size_pos in Ew as Hw1. apply scaled_size_pos in Eh as Hh1.
  exists nw, nh. split_and!; (done || lia).
Qed.

(** A range of one point renders when the point does, for every
    generator. *)
Lemma range_renders_same {G} `{PyRandom G} (tw th : Z) (a : float) :
  (a - a = 0)%float → (a + 0 = a)%float → (a + -0 = a)%float →
  renders tw th a = true → range_renders G tw th a a.
Proof.
  intros Hsub Hp Hn Ha g.
  by rewrite (Random_uniform_same a g Hsub Hp Hn).
Qed.

(** The check of a range for the linear congruential generator decides
    it. *)
Lemma lcg_range_renders_sound (tw th : Z) (lo hi : float) :
  lcg_range_renders tw th lo hi = true → range_renders Z tw th lo hi.
Proof.
  unfold lcg_range_renders. rewrite forallb_forall. intros Hall g.
  apply (Hall (Lcg.next g / 8388608)).
  assert (0 ≤ Lcg.next g < 2147483648) as Hr
    by (apply Z.mod_pos_bound; reflexivity).
  assert (Lcg.next g / 8388608 < 256) by (apply Z.div_lt_upper_bound; lia).
  assert (0 ≤ Lcg.next g / 8388608) by (apply Z.div_pos; lia).
  apply list_elem_of_In,
    (list_elem_of_fmap_2' _ _ (Z.to_nat (Lcg.next g / 8388608)));
    [apply elem_of_seq; lia|rewrite Z2Nat.id; [reflexivity|lia]].
Qed.

Lemma unit_scale_keeps_spec (fuel : nat) (n k : Z) :
  unit_scale_keeps fuel n = true → n ≤ k < n + Z.of_nat fuel →
  scaled_size k 1 = Ok k.
Proof.
  revert n. induction fuel as [|fuel IH]; intros n Hall Hk; [lia|].
  cbn [unit_scale_keeps] in Hall.
  destruct (scaled_size n 1) as [m|] eqn:E; [|discriminate].
  apply andb_true_iff in Hall as [Hm%Z.eqb_eq Hrest]. subst m.
  destruct (decide (k = n)) as [->|Hne]; [exact E|].
  apply (IH (n + 1)); [exact Hrest|lia].
Qed.

(** At scale 1.0 the scaled size of a tile of up to 16384 pixels is its
    size: each product and each rounding is exact. *)
Lemma scaled_size_unit_scale (n : Z) :
  1 ≤ n ≤ 16384 → scaled_size n 1 = Ok n.
Proof.
  intros Hn.
  assert (Z.of_nat (Nat.pow 2 14) = 16384) as E by (vm_compute; reflexivity).
  apply (unit_scale_keeps_spec (Nat.pow 2 14) 1); [|lia].
  vm_compute. reflexivity.
Qed.

Lemma div255_exact (v : Z) : 0 ≤ v ≤ 255 → div255 (255 * v) = v.
Proof.
  intros Hv. unfold div255. rewrite !Z.shiftr_div_pow2 by lia.
  change (2 ^ 8) with 256. Z.div_mod_to_equations. lia.
Qed.

Lemma blend_band_opaque (out inp : Z) :
  0 ≤ inp ≤ 255 → blend_band 255 out inp = inp.
Proof.
  intros Hi. unfold blend_band.
  replace (out * (255 - 255) + inp * 255) with (255 * inp) by lia.
  by apply div255_exact.
Qed.

Lemma blend_band_transparent (out inp : Z) :
  0 ≤ out ≤ 255 → blend_band 0 out inp = out.
Proof.
  intros Ho. unfold blend_band.
  replace (out * (255 - 0) + inp * 0) with (255 * out) by lia.
  by apply div255_exact.
Qed.

Lemma blend_band_range (mask out inp : Z) :
  0 ≤ mask ≤ 255 → 0 ≤ out ≤ 255 → 0 ≤ inp ≤ 255 →
  0 ≤ blend_band mask out inp ≤ 255.
Proof.
  intros Hm Ho Hi. unfold blend_band, div255.
  rewrite !Z.shiftr_div_pow2 by lia. change (2 ^ 8) with 256.
  assert (0 ≤ out * (255 - mask) + inp * mask ≤ 65025) by nia.
  Z.div_mod_to_equations. lia.
Qed.

Lemma blend_pixel_opaque (out inp : Pixel) :
  length inp = length out → Forall (λ v, 0 ≤ v ≤ 255) inp →
  blend_pixel 255 out inp = inp.
Proof.
  unfold blend_pixel. revert out.
  induction inp as [|i inp IH]; intros [|o out] Hlen Hall; try discriminate.
  - reflexivity.
  - simpl in *. apply Forall_cons in Hall as [Hi Hall].
    rewrite blend_band_opaque by done. f_equal. apply IH; [lia|done].
Qed.

Lemma blend_pixel_transparent (out inp : Pixel) :
  length inp = length out → Forall (λ v, 0 ≤ v ≤ 255) out →
  blend_pixel 0 out inp = out.
Proof.
  unfold blend_pixel. revert inp.
  induction out as [|o out IH]; intros [|i inp] Hlen Hall; try discriminate.
  - reflexivity.
  - simpl in *. apply Forall_cons in Hall as [Ho Hall].
    rewrite blend_band_transparent by done. f_equal. apply IH; [lia|done].
Qed.

Section RendererFacts.
Context {G : Type} `{PyRandom G} {R : Resampler} {C : ImageColor}.

(** What one call of the renderer does when both scaled sizes are defined
    and fit. *)
Lemma crop_and_scale_tile_run
    (w : World G) (src_img : ref) (s : Image)
    (left_ top_ tile_w tile_h new_w new_h : Z) (sc : float) :
  images w !! src_img = Some s → 0 < tile_w → 0 < tile_h →
  scaled_size tile_w sc = Ok new_w → scaled_size tile_h sc = Ok new_h →
  (new_w ≤ INT_MAX ∧ new_h ≤ INT_MAX) ∨ (new_w, new_h) = (tile_w, tile_h) →
  ∃ tile w' t,
    crop_and_scale_tile src_img left_ top_ tile_w tile_h sc w = Ok (tile, w')
    ∧ images w !! tile = None
    ∧ images w' !! tile = Some t
    ∧ mode t = mode s
    ∧ size t = (new_w, new_h)
    ∧ 1 ≤ width t ∧ 1 ≤ height t
    ∧ extends w w'
    ∧ random_inst w' = random_inst w
    ∧ ((new_w, new_h) = (tile_w, tile_h) →
       t = crop_image s left_ top_ (left_ + tile_w) (top_ + tile_h)).
Proof.
  intros Hs Hw Hh Enw Enh Hfit. unfold crop_and_scale_tile. unfold_M.
  rewrite (Image_crop_spec src_img s) by (done || lia).
  destruct (alloc_spec (crop_image s left_ top_ (left_ + tile_w) (top_ + tile_h)) w)
    as (r1 & w1 & -> & F1 & I1 & G1 & E1).
  unfold lift. rewrite Enw, Enh.
  apply scaled_size_pos in Enw as Hw1. apply scaled_size_pos in Enh as Hh1.
  assert (images w1 !! r1
          = Some (crop_image s left_ top_ (left_ + tile_w) (top_ + tile_h)))
    as Hr1.
  { rewrite I1. apply lookup_insert_eq. }
  assert (∃ t,
    Image_resize r1 (new_w, new_h) w1 = alloc t w1
    ∧ mode t = mode s ∧ size t = (new_w, new_h)
    ∧ ((new_w, new_h) = (tile_w, tile_h) →
       t = crop_image s left_ top_ (left_ + tile_w) (top_ + tile_h)))
    as (t & -> & Hm & Hsz & Hsame).
  { destruct Hfit as [[Hfw Hfh]|Hfit].
    - destruct (Image_resize_spec r1 _ new_w new_h w1 Hr1)
        as (t & Hrun & Hm & Hsz & Hsame); [lia|lia|].
      exists t. split_and!; [done|done|done|].
      intros [= -> ->]. apply Hsame. unfold size. cbn [width height crop_image].
      f_equal; lia.
    - injection Hfit as -> ->.
      exists (crop_image s left_ top_ (left_ + tile_w) (top_ + tile_h)).
      split_and!; [|reflexivity| |done].
      + rewrite <- (Image_resize_same r1 _ w1 Hr1).
        cbn [width height crop_image]. do 2 f_equal; lia.
      + unfold size. cbn [width height crop_image]. f_equal; lia. }
  destruct (alloc_spec t w1) as (r2 & w2 & -> & F2 & I2 & G2 & E2).
  exists r2, w2, t. split; [reflexivity|].
  assert (images w !! r2 = None) as Hfree.
  { destruct (images w !! r2) as [im|] eqn:E; [|done].
    apply E1 in E. rewrite E in F2. discriminate. }
  unfold size in Hsz. injection Hsz as Hwt Hht.
  split_and!; try done.
  - rewrite I2. apply lookup_insert_eq.
  - unfold size. by rewrite Hwt, Hht.
  - lia.
  - lia.
  - by eapply extends_trans.
  - by rewrite G2.
Qed.

(** What one call of the renderer does when a scaled size is not defined,
    or does not fit. *)
Lemma crop_and_scale_tile_fails
    (w : World G) (src_img : ref) (s : Image)
    (left_ top_ tile_w tile_h : Z) (sc : float) :
  images w !! src_img = Some s →
  0 < tile_w ≤ INT_MAX → 0 < tile_h ≤ INT_MAX →
  (∀ e, scaled_size tile_w sc = Raise e →
        crop_and_scale_tile src_img left_ top_ tile_w tile_h sc w = Raise e)
  ∧ (∀ new_w e, scaled_size tile_w sc = Ok new_w →
        scaled_size tile_h sc = Raise e →
        crop_and_scale_tile src_img left_ top_ tile_w tile_h sc w = Raise e)
  ∧ (∀ new_w new_h, scaled_size tile_w sc = Ok new_w →
        scaled_size tile_h sc = Ok new_h →
        INT_MAX < new_w ∨ INT_MAX < new_h →
        ∃ msg, crop_and_scale_tile src_img left_ top_ tile_w tile_h sc w
               = Raise (OverflowError msg)).
Proof.
  intros Hs Hw Hh. unfold crop_and_scale_tile. unfold_M.
  rewrite (Image_crop_spec src_img s) by (done || lia).
  destruct (alloc_spec (crop_image s left_ top_ (left_ + tile_w) (top_ + tile_h)) w)
    as (r1 & w1 & -> & F1 & I1 & G1 & E1).
  unfold lift. split_and!.
  - intros e ->. reflexivity.
  - intros new_w e -> ->. reflexivity.
  - intros new_w new_h -> -> Hbig.
    apply (Image_resize_overflow r1
             (crop_image s left_ top_ (left_ + tile_w) (top_ + tile_h)));
      [rewrite I1; apply lookup_insert_eq| | |done];
      cbn [width height crop_image]; lia.
Qed.

(** X1. Whenever both scaled sizes, [max(1, round(tile_w * scale))] and
    [max(1, round(tile_h * scale))] in binary64, are defined and fit a C
    [int], the renderer returns a new object of the source's mode and of
    that size.  Nothing that was live is changed and the module-level
    generator is not touched. *)
Theorem crop_and_scale_tile_geometry
    (w : World G) (src_img : ref) (s : Image)
    (left_ top_ tile_w tile_h new_w new_h : Z) (sc : float) :
  images w !! src_img = Some s → 0 < tile_w → 0 < tile_h →
  scaled_size tile_w sc = Ok new_w → scaled_size tile_h sc = Ok new_h →
  new_w ≤ INT_MAX → new_h ≤ INT_MAX →
  ∃ tile w' t,
    crop_and_scale_tile src_img left_ top_ tile_w tile_h sc w = Ok (tile, w')
    ∧ images w !! tile = None
    ∧ images w' !! tile = Some t
    ∧ mode t = mode s
    ∧ size t = (new_w, new_h)
    ∧ 1 ≤ width t ∧ 1 ≤ height t
    ∧ extends w w'
    ∧ random_inst w' = random_inst w.
Proof.
  intros Hs Hw Hh Enw Enh Hfw Hfh.
  destruct (crop_and_scale_tile_run w src_img s left_ top_ tile_w tile_h
              new_w new_h sc Hs Hw Hh Enw Enh (or_introl (conj Hfw Hfh)))
    as (tile & w' & t & Hrun & Hnew & Hlive & Hm & Hsz & Hw1 & Hh1 & Hext & Hg & _).
  exists tile, w', t. split_and!; done.
Qed.

(** X2. At scale 1.0 the rendered tile is the box itself, for a tile of up
    to 16384 pixels each way: it has the box's size, and its pixel at
    [(x, y)] is the source's pixel at [(left + x, top + y)] wherever that
    lies inside the source. *)
Theorem crop_and_scale_tile_unit_scale
    (w : World G) (src_img : ref) (s : Image)
    (left_ top_ tile_w tile_h : Z) :
  images w !! src_img = Some s →
  0 < tile_w ≤ 16384 → 0 < tile_h ≤ 16384 →
  ∃ tile w' t,
    crop_and_scale_tile src_img left_ top_ tile_w tile_h 1 w = Ok (tile, w')
    ∧ images w' !! tile = Some t
    ∧ size t = (tile_w, tile_h)
    ∧ ∀ x y, in_bounds s (left_ + x) (top_ + y) →
             getpixel t x y = getpixel s (left_ + x) (top_ + y).
Proof.
  intros Hs Hw Hh.
  destruct (crop_and_scale_tile_run w src_img s left_ top_ tile_w tile_h
              tile_w tile_h 1 Hs ltac:(lia) ltac:(lia)
              (scaled_size_unit_scale tile_w ltac:(lia))
              (scaled_size_unit_scale tile_h ltac:(lia))
              (or_intror eq_refl))
    as (tile & w' & t & Hrun & _ & Hlive & _ & _ & _ & _ & _ & _ & Hcopy).
  specialize (Hcopy eq_refl). subst t.
  eexists tile, w', _. split_and!; [exact Hrun|exact Hlive| |].
  - unfold size. cbn [width height crop_image]. f_equal; lia.
  - intros x y [Hx Hy]. cbn [getpixel crop_image].
    assert (inside 0 0 (width s) (height s) (left_ + x) (top_ + y) = true)
      as ->; [|reflexivity].
    apply inside_true. lia.
Qed.

(** X25. A scale too large for the arithmetic raises [OverflowError], after
    the crop: when a product [tile * scale] is beyond the floats [round]
    refuses the infinity, and when a scaled size is beyond a C [int] the
    resampling code refuses the size. *)
Theorem crop_and_scale_tile_overflow
    (w : World G) (src_img : ref) (s : Image)
    (left_ top_ tile_w tile_h : Z) (sc : float) :
  images w !! src_img = Some s →
  0 < tile_w ≤ INT_MAX → 0 < tile_h ≤ INT_MAX →
  (∃ msg, scaled_size tile_w sc = Raise (OverflowError msg))
  ∨ (∃ new_w new_h, scaled_size tile_w sc = Ok new_w
                    ∧ scaled_size tile_h sc = Ok new_h
                    ∧ (INT_MAX < new_w ∨ INT_MAX < new_h)) →
  ∃ msg,
    crop_and_scale_tile src_img left_ top_ tile_w tile_h sc w
    = Raise (OverflowError msg).
Proof.
  intros Hs Hw Hh Hbig.
  destruct (crop_and_scale_tile_fails w src_img s left_ top_ tile_w tile_h sc
              Hs Hw Hh) as (Hfirst & _ & Hsize).
  destruct Hbig as [[msg Hmsg]|(new_w & new_h & Enw & Enh & Hbig)].
  - exists msg. by apply Hfirst.
  - by eapply Hsize.
Qed.

End RendererFacts.

Lemma crop_and_scale_tile_geometry_witness :
  ∃ tile w' t,
    crop_and_scale_tile 0%nat 0 0 2 1 1.5 (one_image 0) = Ok (tile, w')
    ∧ images (one_image 0) !! tile = None
    ∧ images w' !! tile = Some t
    ∧ mode t = mode red_blue
    ∧ size t = (3, 2)
    ∧ 1 ≤ width t ∧ 1 ≤ height t
    ∧ extends (one_image 0) w'
    ∧ random_inst w' = random_inst (one_image 0).
Proof.
  apply (crop_and_scale_tile_geometry (one_image 0) 0%nat red_blue 0 0 2 1 3 2 1.5);
    [reflexivity | lia | lia | vm_compute; reflexivity | vm_compute; reflexivity
    | vm_compute; discriminate | vm_compute; discriminate].
Defined.

Lemma crop_and_scale_tile_unit_scale_witness :
  ∃ tile w' t,
    crop_and_scale_tile 0%nat 1 0 1 1 1 (one_image 0) = Ok (tile, w')
    ∧ images w' !! tile = Some t
    ∧ size t = (1, 1)
    ∧ ∀ x y, in_bounds red_blue (1 + x) (0 + y) →
             getpixel t x y = getpixel red_blue (1 + x) (0 + y).
Proof.
  apply (crop_and_scale_tile_unit_scale (one_image 0) 0%nat red_blue 1 0 1 1);
    [reflexivity | lia | lia].
Defined.

Lemma crop_and_scale_tile_overflow_witness :
  ∃ msg,
    crop_and_scale_tile 0%nat 0 0 2 1 1e30 (one_image 0)
    = Raise (OverflowError msg).
Proof.
  apply (crop_and_scale_tile_overflow (one_image 0) 0%nat red_blue 0 0 2 1 1e30);
    [reflexivity | vm_compute; split; [reflexivity|discriminate]
    | vm_compute; split; [reflexivity|discriminate] | ].
  right. eexists _, _. split; [vm_compute; reflexivity|].
  split; [vm_compute; reflexivity|]. left. vm_compute. reflexivity.
Defined.
Lemma luma_range (r g b : Z) :
  0 ≤ r ≤ 255 → 0 ≤ g ≤ 255 → 0 ≤ b ≤ 255 → 0 ≤ luma r g b ≤ 255.
Proof.
  intros Hr Hg Hb. unfold luma. rewrite Z.shiftr_div_pow2 by lia.
  change (2 ^ 16) with 65536. Z.div_mod_to_equations. lia.
Qed.

Lemma convert_pixel_valid (m : Mode) (p : Pixel) :
  valid_pixel RGBA p → valid_pixel m (convert_pixel RGBA m p).
Proof.
  intros [Hlen Hall].
  destruct p as [|r [|g [|b [|a [|]]]]]; try discriminate.
  apply Forall_cons in Hall as [Hr Hall].
  apply Forall_cons in Hall as [Hg Hall].
  apply Forall_cons in Hall as [Hb Hall].
  destruct m; unfold valid_pixel; simpl.
  - split; [reflexivity|]. apply Forall_singleton. by apply luma_range.
  - split; [reflexivity|]. repeat (apply Forall_cons_2; [done|]).
    apply Forall_nil_2.
  - split; [reflexivity|]. repeat (apply Forall_cons_2; [done|]). done.
Qed.

Lemma clip_axis_visible (p src_len dest_len x : Z) :
  clip_start p < clip_end p src_len dest_len →
  0 ≤ x < dest_len →
  (clip_dst p ≤ x < clip_dst p + (clip_end p src_len dest_len - clip_start p)
   ↔ p ≤ x < p + src_len).
Proof.
  unfold clip_start, clip_dst, clip_end.
  destruct (p <? 0) eqn:E1; [apply Z.ltb_lt in E1|apply Z.ltb_ge in E1];
    (destruct (p + src_len >? dest_len) eqn:E2;
     [apply Z.gtb_lt in E2
     |pose proof (Zgt_cases (p + src_len) dest_len) as C; rewrite E2 in C]);
    lia.
Qed.

Section PasteSemantics.
Context {G : Type} `{PyRandom G} {R : Resampler} {C : ImageColor}.

(** Every pixel of the destination after a paste, in terms of the two
    rasters before it. *)
Lemma paste_with_center_pixels
    (w : World G) (dest src : ref) (d s : Image) (center_x center_y : Z) :
  images w !! dest = Some d → images w !! src = Some s →
  let paste_x := center_x - width s / 2 in
  let paste_y := center_y - height s / 2 in
  ∃ w' d',
    paste_with_center dest src center_x center_y w = Ok (tt, w')
    ∧ images w' !! dest = Some d'
    ∧ ∀ x y, in_bounds d x y →
        getpixel d' x y
        = if inside paste_x paste_y (paste_x + width s) (paste_y + height s) x y
          then
            let p := getpixel s (x - paste_x) (y - paste_y) in
            let inp := convert_pixel (mode s) (mode d) p in
            if decide (mode s = RGBA)
            then blend_pixel (mask_value p) (getpixel d x y) inp
            else inp
          else getpixel d x y.
Proof.
  intros Hd Hs px py.
  rewrite (paste_with_center_run w dest src d s center_x center_y Hd Hs).
  cbv zeta. fold px. fold py.
  destruct (_ || _) eqn:Hc.
  { exists w, d. split_and!; [done..|]. intros x y [Hx Hy].
    destruct (inside px py (px + width s) (py + height s) x y) eqn:Hin;
      [|reflexivity].
    exfalso. apply inside_true in Hin as [Hix Hiy].
    apply orb_true_iff in Hc as [Hc|Hc];
      rewrite Z.geb_leb in Hc; apply Z.leb_le in Hc.
    - exact (clip_axis_empty px (width s) (width d) x Hc Hx Hix).
    - exact (clip_axis_empty py (height s) (height d) y Hc Hy Hiy). }
  apply orb_false_iff in Hc as [Hcx Hcy].
  rewrite Z.geb_leb in Hcx, Hcy. apply Z.leb_gt in Hcx, Hcy.
  destruct (clip_axis px (width s) (width d) Hcx) as (Hx1 & Hx2 & Hx3 & Hx4 & Hx5).
  destruct (clip_axis py (height s) (height d) Hcy) as (Hy1 & Hy2 & Hy3 & Hy4 & Hy5).
  eexists _, _. split; [reflexivity|]. cbn [images].
  rewrite lookup_insert_eq. split; [reflexivity|].
  intros x y [Hx Hy].
  destruct (decide (mode s = RGBA)) as [Hm|Hm];
    cbn [getpixel paste_image width height crop_image mode];
  pose proof (clip_axis_visible px (width s) (width d) x Hcx Hx) as Vx;
  pose proof (clip_axis_visible py (height s) (height d) y Hcy Hy) as Vy;
  (destruct (inside px py (px + width s) (py + height s) x y) eqn:Hin;
   [apply inside_true in Hin as [Hix Hiy];
    (assert (inside (clip_dst px) (clip_dst py)
              (clip_dst px + (clip_end px (width s) (width d) - clip_start px))
              (clip_dst py + (clip_end py (height s) (height d) - clip_start py))
              x y = true) as -> by (apply inside_true; tauto));
    replace (clip_start px + (x - clip_dst px)) with (x - px) by lia;
    replace (clip_start py + (y - clip_dst py)) with (y - py) by lia;
    (assert (inside 0 0 (width s) (height s) (x - px) (y - py) = true) as ->
       by (apply inside_true; lia));
    reflexivity
   |(assert (inside (clip_dst px) (clip_dst py)
              (clip_dst px + (clip_end px (width s) (width d) - clip_start px))
              (clip_dst py + (clip_end py (height s) (height d) - clip_start py))
              x y = false) as ->; [|reflexivity]);
    apply not_true_is_false; intros Ht; apply inside_true in Ht;
    (assert (inside px py (px + width s) (py + height s) x y = true) as Hin'
       by (apply inside_true; tauto));
    congruence]).
Qed.

(** X3. A source without alpha is copied, centre on centre: after the call
    every pixel of the destination that lies under the source holds the
    source pixel at the same offset from the source's corner (converted to
    the destination's mode), and every other pixel of the destination is
    unchanged. *)
Theorem paste_with_center_copies_visible_part
    (w : World G) (dest src : ref) (d s : Image) (center_x center_y : Z) :
  images w !! dest = Some d → images w !! src = Some s → mode s ≠ RGBA →
  let paste_x := center_x - width s / 2 in
  let paste_y := center_y - height s / 2 in
  ∃ w' d',
    paste_with_center dest src center_x center_y w = Ok (tt, w')
    ∧ images w' !! dest = Some d'
    ∧ ∀ x y, in_bounds d x y →
        getpixel d' x y
        = if inside paste_x paste_y (paste_x + width s) (paste_y + height s) x y
          then convert_pixel (mode s) (mode d)
                 (getpixel s (x - paste_x) (y - paste_y))
          else getpixel d x y.
Proof.
  intros Hd Hs Hm px py.
  destruct (paste_with_center_pixels w dest src d s center_x center_y Hd Hs)
    as (w' & d' & Hrun & Hlive & Hpix).
  exists w', d'. split_and!; [done..|].
  intros x y Hxy. rewrite (Hpix x y Hxy). fold px. fold py. cbv zeta.
  destruct (decide (mode s = RGBA)); [contradiction|reflexivity].
Qed.

(** X4. A source with alpha is blended through its own alpha band: under a
    fully transparent source pixel the destination keeps its pixel, and
    under a fully opaque one it takes the source pixel. *)
Theorem paste_with_center_alpha_extremes
    (w : World G) (dest src : ref) (d s : Image)
    (center_x center_y x y : Z) :
  images w !! dest = Some d → images w !! src = Some s → mode s = RGBA →
  let paste_x := center_x - width s / 2 in
  let paste_y := center_y - height s / 2 in
  let p := getpixel s (x - paste_x) (y - paste_y) in
  in_bounds d x y → in_bounds s (x - paste_x) (y - paste_y) →
  valid_pixel RGBA p → valid_pixel (mode d) (getpixel d x y) →
  ∃ w' d',
    paste_with_center dest src center_x center_y w = Ok (tt, w')
    ∧ images w' !! dest = Some d'
    ∧ (mask_value p = 0 → getpixel d' x y = getpixel d x y)
    ∧ (mask_value p = 255 →
       getpixel d' x y = convert_pixel RGBA (mode d) p).
Proof.
  intros Hd Hs Hm px py p Hxy [Hsx Hsy] Hp Hdp.
  destruct (paste_with_center_pixels w dest src d s center_x center_y Hd Hs)
    as (w' & d' & Hrun & Hlive & Hpix).
  exists w', d'. split_and!; [done..| |];
    intros Ha; rewrite (Hpix x y Hxy); fold px; fold py; cbv zeta;
    (assert (inside px py (px + width s) (py + height s) x y = true) as ->
       by (apply inside_true; lia));
    (destruct (decide (mode s = RGBA)); [|contradiction]);
    fold p; rewrite Ha, Hm;
    destruct (convert_pixel_valid (mode d) p Hp) as [Hl1 Hf1];
    destruct Hdp as [Hl2 Hf2].
  - apply blend_pixel_transparent; [congruence|done].
  - apply blend_pixel_opaque; [congruence|done].
Qed.

End PasteSemantics.

Section FlattenFacts.
Context {G : Type} `{PyRandom G} {R : Resampler} {C : ImageColor}.

(** What one call of [flatten_opaque] does: the colour is looked up only
    for an RGBA raster. *)
Lemma flatten_opaque_run (w : World G) (img : ref) (im : Image)
    (bg_color : string) (bg : Pixel) :
  images w !! img = Some im →
  (mode im = RGBA → getcolor bg_color RGB = Some bg) →
  ∃ out w',
    flatten_opaque img bg_color w = Ok (out, w')
    ∧ images w !! out = None
    ∧ images w' !! out = Some (flattened im bg)
    ∧ extends w w'
    ∧ random_inst w' = random_inst w.
Proof.
  intros Him Hbg. unfold flatten_opaque, flattened, load. unfold_M. rewrite Him.
  destruct (decide (mode im = RGBA)) as [Hm|Hm].
  - rewrite (Image_new_spec RGB (size im) bg_color bg) by auto.
    destruct (alloc_spec (new_image RGB (size im) bg) w)
      as (r1 & w1 & -> & F1 & I1 & G1 & E1).
    unfold Image_split_last, load. unfold_M. rewrite (E1 _ _ Him).
    destruct (alloc_spec (last_band im) w1)
      as (r2 & w2 & -> & F2 & I2 & G2 & E2).
    unfold Image_paste, load, store. unfold_M.
    rewrite (E2 _ _ (E1 _ _ Him)).
    assert (images w1 !! r1 = Some (new_image RGB (size im) bg)) as L1.
    { rewrite I1. apply lookup_insert_eq. }
    assert (images w2 !! r2 = Some (last_band im)) as L2.
    { rewrite I2. apply lookup_insert_eq. }
    rewrite L2, (E2 _ _ L1). cbn [width height last_band].
    rewrite !Z.eqb_refl. cbn [andb fst snd].
    eexists _, _. split; [reflexivity|]. cbn [images random_inst].
    split_and!; [exact F1|apply lookup_insert_eq| |by rewrite G2].
    intros r im' Hr. cbn [images]. rewrite lookup_insert_ne.
    + apply E2, E1, Hr.
    + intros <-. rewrite F1 in Hr. discriminate.
  - unfold Image_convert, load. unfold_M. rewrite Him.
    destruct (alloc_spec (convert_image RGB im) w)
      as (r1 & w1 & -> & F1 & I1 & G1 & E1).
    exists r1, w1. split_and!; [done|done| |done|done].
    rewrite I1. apply lookup_insert_eq.
Qed.

Lemma flatten_opaque_unknown_color (w : World G) (img : ref) (im : Image)
    (bg_color : string) :
  images w !! img = Some im → mode im = RGBA → getcolor bg_color RGB = None →
  ∃ msg, flatten_opaque img bg_color w = Raise (ValueError msg).
Proof.
  intros Him Hm Hbg. unfold flatten_opaque, load. unfold_M. rewrite Him.
  destruct (decide (mode im = RGBA)); [|contradiction].
  destruct (Image_new_unknown RGB (size im) bg_color w Hbg) as [msg ->].
  eauto.
Qed.

(** X5. [flatten_opaque] looks the colour up only for an RGBA raster.  For
    a raster of another mode, or with a colour string that names a colour,
    it returns a new RGB raster of the size of its argument; the argument
    and every other live image are unchanged, and the module-level
    generator is not touched.  For an RGBA raster with a string that names
    no colour it raises [ValueError]. *)
Theorem flatten_opaque_new_rgb (w : World G) (img : ref) (im : Image)
    (bg_color : string) :
  images w !! img = Some im →
  (mode im ≠ RGBA ∨ is_Some (getcolor bg_color RGB) →
   ∃ out w' o,
     flatten_opaque img bg_color w = Ok (out, w')
     ∧ images w !! out = None
     ∧ images w' !! out = Some o
     ∧ mode o = RGB ∧ size o = size im
     ∧ extends w w'
     ∧ random_inst w' = random_inst w)
  ∧ (mode im = RGBA → getcolor bg_color RGB = None →
     ∃ msg, flatten_opaque img bg_color w = Raise (ValueError msg)).
Proof.
  intros Him. split.
  - intros Hok.
    assert (∃ bg, mode im = RGBA → getcolor bg_color RGB = Some bg)
      as [bg Hbg].
    { destruct Hok as [Hm|[bg Hbg]]; [exists []; done|exists bg; done]. }
    destruct (flatten_opaque_run w img im bg_color bg Him Hbg)
      as (out & w' & Hrun & Hnew & Hlive & Hext & Hg).
    exists out, w', (flattened im bg).
    split_and!; [done|done|done| | |done|done];
      unfold flattened; destruct (decide (mode im = RGBA)); reflexivity.
  - by apply flatten_opaque_unknown_color.
Qed.

(** X6. The pixels [flatten_opaque] produces from an RGBA raster, with a
    colour string that names the colour [bg]: where the raster is fully
    opaque its colour, where it is fully transparent [bg], and [bg] outside
    the raster. *)
Theorem flatten_opaque_alpha_extremes (w : World G) (img : ref) (im : Image)
    (bg_color : string) (bg : Pixel) (x y : Z) :
  images w !! img = Some im → mode im = RGBA →
  getcolor bg_color RGB = Some bg → valid_pixel RGBA (getpixel im x y) →
  ∃ out w' o,
    flatten_opaque img bg_color w = Ok (out, w')
    ∧ images w' !! out = Some o
    ∧ (in_bounds im x y → mask_value (getpixel im x y) = 255 →
       getpixel o x y = take 3 (getpixel im x y))
    ∧ (in_bounds im x y → mask_value (getpixel im x y) = 0 →
       getpixel o x y = bg)
    ∧ (¬ in_bounds im x y → getpixel o x y = bg).
Proof.
  intros Him Hm Hc Hp. pose proof (getcolor_valid _ _ _ Hc) as Hbg.
  destruct (flatten_opaque_run w img im bg_color bg Him (λ _, Hc))
    as (out & w' & Hrun & _ & Hlive & _ & _).
  exists out, w', (flattened im bg). split_and!; [done|done|..];
    unfold flattened; (destruct (decide (mode im = RGBA)); [|contradiction]);
    cbn [getpixel paste_image new_image last_band width height mode fst snd size];
    rewrite !Z.add_0_l, !Z.sub_0_r, Hm.
  - intros [Hx Hy] Ha.
    assert (inside 0 0 (width im) (height im) x y = true) as ->
      by (apply inside_true; lia).
    unfold mask_value at 1. cbn [List.last]. rewrite Ha.
    destruct (convert_pixel_valid RGB _ Hp) as [Hl Hf]. destruct Hbg as [Hl2 _].
    apply (blend_pixel_opaque bg); [simpl in *; congruence|done].
  - intros [Hx Hy] Ha.
    assert (inside 0 0 (width im) (height im) x y = true) as ->
      by (apply inside_true; lia).
    unfold mask_value at 1. cbn [List.last]. rewrite Ha.
    destruct (convert_pixel_valid RGB _ Hp) as [Hl Hf]. destruct Hbg as [Hl2 Hf2].
    apply blend_pixel_transparent; [simpl in *; congruence|done].
  - intros Hout.
    assert (inside 0 0 (width im) (height im) x y = false) as ->; [|reflexivity].
    apply not_true_is_false. intros Ht. apply inside_true in Ht.
    apply Hout. unfold in_bounds. lia.
Qed.

End FlattenFacts.

Section SamplerMore.
Context {G : Type} `{PyRandom G}.

(** X7. On any geometry that is not valid (a tile size that is zero or
    negative, or a tile larger than the image) the toolkit's sampler raises
    [ValueError]. *)
Theorem choose_random_tile_position_rejects
    (img_w img_h tile_w tile_h : Z) (w : World G) :
  tile_w ≤ 0 ∨ tile_h ≤ 0 ∨ img_w < tile_w ∨ img_h < tile_h →
  ∃ msg,
    choose_random_tile_position img_w img_h tile_w tile_h w
    = Raise (ValueError msg).
Proof.
  intros Hbad. apply choose_random_tile_position_invalid. lia.
Qed.

(** X8. On valid geometry the sampler takes exactly two draws from the
    module-level generator, [left] first and [top] second, each a
    [randbelow] of the number of admissible positions, and changes nothing
    else in the world. *)
Theorem choose_random_tile_position_two_draws
    (img_w img_h tile_w tile_h : Z) (w : World G) :
  0 < tile_w ≤ img_w → 0 < tile_h ≤ img_h →
  let first := randbelow (img_w - tile_w + 1) (random_inst w) in
  let second := randbelow (img_h - tile_h + 1) first.2 in
  choose_random_tile_position img_w img_h tile_w tile_h w
  = Ok ((first.1, second.1, first.1 + tile_w / 2, second.1 + tile_h / 2),
        mkWorld (images w) second.2).
Proof.
  intros Hw Hh first second. subst first second.
  rewrite (choose_random_tile_position_draws img_w img_h tile_w tile_h w Hw Hh).
  rewrite !Z.sub_0_r.
  destruct (randbelow (img_w - tile_w + 1) (random_inst w)) as [l g1].
  cbn [fst snd].
  destruct (randbelow (img_h - tile_h + 1) g1) as [t g2]. cbn [fst snd].
  rewrite !Z.add_0_l. reflexivity.
Qed.

Lemma legacy_sampler_run (rng : G) (img_w img_h tile_w tile_h : Z) :
  tile_w ≤ img_w → tile_h ≤ img_h →
  ∃ left_ top_ rng',
    Legacy.choose_random_tile_position rng img_w img_h tile_w tile_h
    = Ok ((left_, top_, left_ + tile_w / 2, top_ + tile_h / 2), rng')
    ∧ 0 ≤ left_ ≤ img_w - tile_w ∧ 0 ≤ top_ ≤ img_h - tile_h
    ∧ rng' = (randbelow (img_h - tile_h + 1)
                (randbelow (img_w - tile_w + 1) rng).2).2.
Proof.
  unfold Legacy.choose_random_tile_position, Random_randint. intros Hw Hh.
  destruct (tile_w >? img_w) eqn:E1; [apply Z.gtb_lt in E1; lia|].
  destruct (tile_h >? img_h) eqn:E2; [apply Z.gtb_lt in E2; lia|].
  cbn [orb]. rewrite !Z.sub_0_r.
  destruct (0 <? img_w - tile_w + 1) eqn:E3; [|apply Z.ltb_ge in E3; lia].
  pose proof (randbelow_range (img_w - tile_w + 1) rng ltac:(lia)) as Hl.
  destruct (randbelow (img_w - tile_w + 1) rng) as [l g1]. cbn [fst snd] in *.
  destruct (0 <? img_h - tile_h + 1) eqn:E4; [|apply Z.ltb_ge in E4; lia].
  pose proof (randbelow_range (img_h - tile_h + 1) g1 ltac:(lia)) as Ht.
  destruct (randbelow (img_h - tile_h + 1) g1) as [t g2]. cbn [fst snd] in *.
  exists (0 + l), (0 + t), g2. split_and!; [reflexivity|lia..|reflexivity].
Qed.

(** X9. The prototype's sampler checks one thing, that the tile is not
    larger than the image.  Whenever that holds (also for a tile size of
    zero or less, which it does not reject) it returns a corner with
    [0 <= left <= img_w - tile_w] and [0 <= top <= img_h - tile_h], and the
    centre by floor division, drawing from the generator it was given. *)
Theorem legacy_sampler_checks_size_only
    (rng : G) (img_w img_h tile_w tile_h : Z) :
  tile_w ≤ img_w → tile_h ≤ img_h →
  ∃ left_ top_ rng',
    Legacy.choose_random_tile_position rng img_w img_h tile_w tile_h
    = Ok ((left_, top_, left_ + tile_w / 2, top_ + tile_h / 2), rng')
    ∧ 0 ≤ left_ ≤ img_w - tile_w ∧ 0 ≤ top_ ≤ img_h - tile_h
    ∧ rng' = (randbelow (img_h - tile_h + 1)
                (randbelow (img_w - tile_w + 1) rng).2).2.
Proof. apply legacy_sampler_run. Qed.

End SamplerMore.

Lemma choose_random_tile_position_rejects_witness :
  ∃ msg,
    choose_random_tile_position 100 100 0 20 (one_image 7)
    = Raise (ValueError msg).
Proof.
  apply (choose_random_tile_position_rejects 100 100 0 20 (one_image 7)). lia.
Defined.

Lemma choose_random_tile_position_two_draws_witness :
  let first := randbelow (100 - 20 + 1) (random_inst (one_image 7)) in
  let second := randbelow (100 - 20 + 1) first.2 in
  choose_random_tile_position 100 100 20 20 (one_image 7)
  = Ok ((first.1, second.1, first.1 + 20 / 2, second.1 + 20 / 2),
        mkWorld (images (one_image 7)) second.2).
Proof.
  apply (choose_random_tile_position_two_draws 100 100 20 20 (one_image 7)); lia.
Defined.

Lemma legacy_sampler_checks_size_only_witness :
  ∃ left_ top_ rng',
    Legacy.choose_random_tile_position (Random_seed 7) 100 100 0 (-5)
    = Ok ((left_, top_, left_ + 0 / 2, top_ + (-5) / 2), rng')
    ∧ 0 ≤ left_ ≤ 100 - 0 ∧ 0 ≤ top_ ≤ 100 - (-5)
    ∧ rng' = (randbelow (100 - (-5) + 1)
                (randbelow (100 - 0 + 1) (Random_seed 7)).2).2.
Proof.
  apply (legacy_sampler_checks_size_only (Random_seed 7) 100 100 0 (-5)); lia.
Defined.

Section ModuleGenerator.
Context {G : Type} `{PyRandom G} {R : Resampler} {C : ImageColor}.

Lemma ignores_ret {A} (a : A) : ignores_module_generator (ret (G:=G) a).
Proof. intros w g. reflexivity. Qed.

Lemma ignores_raise {A} (e : exn) : ignores_module_generator (raise (G:=G) (A:=A) e).
Proof. intros w g. reflexivity. Qed.

Lemma ignores_bind {A B} (m : M G A) (k : A → M G B) :
  ignores_module_generator m → (∀ a, ignores_module_generator (k a)) →
  ignores_module_generator (m ≫= k).
Proof.
  intros Hm Hk w g. unfold mbind, M_bind, bind. rewrite Hm.
  destruct (m w) as [[a w']|e]; [apply Hk|reflexivity].
Qed.

Lemma ignores_load (r : ref) : ignores_module_generator (load (G:=G) r).
Proof.
  intros w g. unfold load, set_random. cbn [images].
  destruct (images w !! r); reflexivity.
Qed.

Lemma ignores_store (r : ref) (im : Image) :
  ignores_module_generator (store (G:=G) r im).
Proof. intros w g. reflexivity. Qed.

Lemma ignores_alloc (im : Image) : ignores_module_generator (alloc (G:=G) im).
Proof. intros w g. reflexivity. Qed.

End ModuleGenerator.

Ltac ignores_step :=
  first
    [ apply ignores_bind; [|intros ?]
    | apply ignores_ret
    | apply ignores_raise
    | apply ignores_load
    | apply ignores_store
    | apply ignores_alloc
    | assumption
    | match goal with
      | |- ignores_module_generator (match ?x with _ => _ end) => destruct x
      | |- ignores_module_generator (if ?x then _ else _) => destruct x
      end ].

Ltac ignores := repeat ignores_step.

Section ModuleGeneratorUse.
Context {G : Type} `{PyRandom G} {R : Resampler} {C : ImageColor}.

Lemma ignores_lift {A} (r : result A) :
  ignores_module_generator (lift (G:=G) r).
Proof. intros w g. unfold lift. destruct r; reflexivity. Qed.

Lemma ignores_Image_new m sz color :
  ignores_module_generator (Image_new (G:=G) m sz color).
Proof. unfold Image_new. ignores. Qed.

Lemma ignores_Image_crop r box : ignores_module_generator (Image_crop (G:=G) r box).
Proof. destruct box as [[[x0 y0] x1] y1]. unfold Image_crop. ignores. Qed.

Lemma ignores_Image_resize r sz : ignores_module_generator (Image_resize (G:=G) r sz).
Proof. unfold Image_resize. ignores. Qed.

Lemma ignores_Image_convert r m : ignores_module_generator (Image_convert (G:=G) r m).
Proof. unfold Image_convert. ignores. Qed.

Lemma ignores_Image_split_last r :
  ignores_module_generator (Image_split_last (G:=G) r).
Proof. unfold Image_split_last. ignores. Qed.

Lemma ignores_Image_paste dest im box mask :
  ignores_module_generator (Image_paste (G:=G) dest im box mask).
Proof. unfold Image_paste. ignores. Qed.

Lemma ignores_crop_and_scale_tile src l t tw th sc :
  ignores_module_generator (crop_and_scale_tile (G:=G) src l t tw th sc).
Proof.
  unfold crop_and_scale_tile. cbv zeta.
  apply ignores_bind; [apply ignores_Image_crop|intros ?].
  apply ignores_bind; [apply ignores_lift|intros ?].
  apply ignores_bind; [apply ignores_lift|intros ?].
  apply ignores_Image_resize.
Qed.

Lemma ignores_flatten_opaque img bg :
  ignores_module_generator (flatten_opaque (G:=G) img bg).
Proof.
  unfold flatten_opaque.
  apply ignores_bind; [apply ignores_load|intros im].
  destruct (decide (mode im = RGBA)); [|apply ignores_Image_convert].
  apply ignores_bind; [apply ignores_Image_new|intros ?].
  apply ignores_bind; [apply ignores_Image_split_last|intros ?].
  apply ignores_bind; [apply ignores_Image_paste|intros ?].
  apply ignores_ret.
Qed.

Lemma ignores_paste_with_center dest src cx cy :
  ignores_module_generator (paste_with_center (G:=G) dest src cx cy).
Proof.
  unfold paste_with_center.
  apply ignores_bind; [apply ignores_load|intros d].
  apply ignores_bind; [apply ignores_load|intros s].
  cbn [size]. cbv zeta.
  destruct (_ || _); [apply ignores_ret|].
  apply ignores_bind; [apply ignores_Image_crop|intros ?].
  apply ignores_bind; [apply ignores_load|intros c].
  apply ignores_Image_paste.
Qed.

(** X10. Of the toolkit's tile operations only the sampler involves the
    module-level generator: rendering a tile, flattening it and pasting it
    give the same result, and leave that generator in the state they found
    it in, whatever that state is. *)
Theorem tile_operations_ignore_module_generator
    (src dest img : ref) (left_ top_ tile_w tile_h center_x center_y : Z)
    (sc : float) (bg_color : string) :
  ignores_module_generator
    (crop_and_scale_tile (G:=G) src left_ top_ tile_w tile_h sc)
  ∧ ignores_module_generator (flatten_opaque (G:=G) img bg_color)
  ∧ ignores_module_generator
      (paste_with_center (G:=G) dest src center_x center_y).
Proof.
  split_and!;
    [apply ignores_crop_and_scale_tile
    |apply ignores_flatten_opaque
    |apply ignores_paste_with_center].
Qed.

End ModuleGeneratorUse.

Section PrototypeFacts.
Context {G : Type} `{PyRandom G} {R : Resampler} {C : ImageColor}.

(** X11. The toolkit took the prototype's helpers over: its renderer and
    its flattener are the prototype's, and its paste does what the
    prototype's does on every source raster without an alpha band (for one
    with an alpha band the toolkit blends, the prototype overwrites). *)
Theorem toolkit_paste_matches_prototype
    (w : World G) (dest src : ref) (center_x center_y : Z) :
  (∀ s, images w !! src = Some s → mode s ≠ RGBA) →
  Prototype.paste_opaque_with_center dest src center_x center_y w
  = paste_with_center dest src center_x center_y w
  ∧ Prototype.crop_and_scale_tile_from_src (G:=G) = crop_and_scale_tile
  ∧ Prototype.flatten_tile_to_opaque (G:=G) = flatten_opaque.
Proof.
  intros Hmode. split; [|split; reflexivity].
  unfold Prototype.paste_opaque_with_center, paste_with_center, load.
  unfold_M.
  destruct (images w !! dest) as [d|] eqn:Hd; [|reflexivity].
  destruct (images w !! src) as [s|] eqn:Hs; [|reflexivity].
  cbn [size]. cbv zeta.
  destruct (_ || _) eqn:Hc; [reflexivity|].
  apply orb_false_iff in Hc as [Hx Hy].
  rewrite Z.geb_leb in Hx, Hy. apply Z.leb_gt in Hx, Hy.
  unfold Image_crop, load, alloc. unfold_M. rewrite Hs.
  match goal with |- context [?a <? ?b] =>
    destruct (a <? b) eqn:E1; [apply Z.ltb_lt in E1; lia|] end.
  match goal with |- context [?a <? ?b] =>
    destruct (a <? b) eqn:E2; [apply Z.ltb_lt in E2; lia|] end.
  cbn [images]. rewrite lookup_insert_eq. cbn [mode crop_image].
  destruct (decide (mode s = RGBA)) as [Hm|Hm]; [|reflexivity].
  exfalso. by apply (Hmode s).
Qed.

Lemma ignores_sample rng img_w img_h tw th :
  ignores_module_generator (Prototype.sample (G:=G) rng img_w img_h tw th).
Proof.
  intros w g. unfold Prototype.sample.
  destruct (Legacy.choose_random_tile_position rng img_w img_h tw th);
    reflexivity.
Qed.

Lemma ignores_generate_tiles n i src img_w img_h tw th lo hi bg rng tiles :
  ignores_module_generator
    (Prototype.generate_tiles (G:=G) n i src img_w img_h tw th lo hi bg rng tiles).
Proof.
  revert i rng tiles. induction n as [|n IH]; intros i rng tiles;
    cbn [Prototype.generate_tiles].
  - apply ignores_ret.
  - apply ignores_bind; [apply ignores_sample|intros [[[[l t] cx] cy] rng1]].
    destruct (Random_uniform lo hi rng1) as [sc rng2].
    apply ignores_bind; [apply ignores_crop_and_scale_tile|intros tile].
    apply ignores_bind; [apply ignores_flatten_opaque|intros flat].
    apply IH.
Qed.

(** X12. The prototype's tile generation is reproducible from its seed: it
    neither reads nor advances the module-level generator, so with that
    generator in any other state it returns the same tiles and the same
    state of [rng]. *)
Theorem generate_tiles_once_ignores_module_generator
    (src_rgba : ref) (tiles_count tw th : Z) (lo hi : float) (bg_color : string)
    (rng : G) :
  ignores_module_generator
    (Prototype.generate_tiles_once src_rgba tiles_count tw th lo hi bg_color rng).
Proof.
  unfold Prototype.generate_tiles_once.
  apply ignores_bind; [apply ignores_load|intros s].
  cbn [size]. apply ignores_generate_tiles.
Qed.

End PrototypeFacts.

Lemma flattened_mode_size (im : Image) (bg : Pixel) :
  mode (flattened im bg) = RGB ∧ size (flattened im bg) = size im.
Proof.
  unfold flattened. destruct (decide (mode im = RGBA)); split; reflexivity.
Qed.

Section PrototypeTiles.
Context {G : Type} `{PyRandom G} {R : Resampler} {C : ImageColor}.

Lemma tile_invariant_extends (w w' : World G) (s : Image) (tw th : Z)
    (t : Tile) :
  extends w w' → tile_invariant w s tw th t → tile_invariant w' s tw th t.
Proof.
  intros Hext (?&?&?&?&?&?&?&?& im & nw & nh & Him & ?&?&?&?).
  repeat (split; [assumption|]). exists im, nw, nh. split_and!; [|done..].
  by apply Hext.
Qed.

Lemma generate_tiles_spec (n i : nat) (src : ref) (s : Image) (tw th : Z)
    (lo hi : float) (bg_color : string) (bg : Pixel) (rng : G)
    (tiles : list Tile) (w : World G) :
  images w !! src = Some s →
  0 < tw ≤ width s → 0 < th ≤ height s →
  range_renders G tw th lo hi → getcolor bg_color RGB = Some bg →
  Forall (tile_invariant w s tw th) tiles →
  ∃ tiles' rng' w',
    Prototype.generate_tiles n i src (width s) (height s) tw th lo hi
      bg_color rng tiles w
    = Ok ((tiles', rng'), w')
    ∧ extends w w'
    ∧ random_inst w' = random_inst w
    ∧ Forall (tile_invariant w' s tw th) tiles'
    ∧ index <$> tiles' = (index <$> tiles) ++ seq i n.
Proof.
  revert i rng tiles w.
  induction n as [|n IH]; intros i rng tiles w Hs Hw Hh Hlh Hbg Hinv;
    cbn [Prototype.generate_tiles].
  { exists tiles, rng, w. rewrite app_nil_r.
    split_and!; [reflexivity|apply extends_refl|done..]. }
  unfold_M. unfold Prototype.sample.
  destruct (legacy_sampler_run rng (width s) (height s) tw th
              ltac:(lia) ltac:(lia))
    as (l & t & rng1 & -> & Hl & Ht & _).
  pose proof (Hlh rng1) as Hren.
  destruct (Random_uniform lo hi rng1) as [sc rng2]. cbn [fst] in *.
  destruct (renders_sizes tw th sc Hren)
    as (nw & nh & Enw & Enh & Hnw & Hnh).
  destruct (crop_and_scale_tile_run w src s l t tw th nw nh sc Hs
              ltac:(lia) ltac:(lia) Enw Enh ltac:(left; lia))
    as (tile & w1 & im1 & Hrun1 & _ & Hlive1 & Hm1 & Hsz1 & _ & _ & Hext1 & Hg1 & _).
  change (Prototype.crop_and_scale_tile_from_src src l t tw th sc w)
    with (crop_and_scale_tile src l t tw th sc w).
  rewrite Hrun1.
  destruct (flatten_opaque_run w1 tile im1 bg_color bg Hlive1 (λ _, Hbg))
    as (out & w2 & Hrun2 & _ & Hlive2 & Hext2 & Hg2).
  change (Prototype.flatten_tile_to_opaque tile bg_color w1)
    with (flatten_opaque tile bg_color w1).
  rewrite Hrun2.
  destruct (flattened_mode_size im1 bg) as [Hm2 Hsz2].
  edestruct (IH (S i) rng2
               (tiles ++ [mkTile i l t tw th (l + tw / 2, t + th / 2) sc out
                            (l, t, l + tw, t + th)]) w2)
    as (tiles' & rng' & w' & Hrun & Hext & Hg & Hall & Hidx);
    [by apply Hext2, Hext1|done|done|done|done| |].
  - apply Forall_app. split.
    + eapply Forall_impl; [exact Hinv|]. intros t0 Ht0.
      eapply tile_invariant_extends; [|exact Ht0].
      by eapply extends_trans.
    + apply Forall_singleton. unfold tile_invariant.
      cbn [tile_w tile_h left top orig_box base_center base_scale static_img].
      split_and!; try done; try lia.
      exists (flattened im1 bg), nw, nh. split_and!; [done|done|done|done|].
      by rewrite Hsz2, Hsz1.
  - exists tiles', rng', w'. split_and!; [exact Hrun| |congruence|done|].
    + eapply extends_trans; [|exact Hext]. by eapply extends_trans.
    + rewrite Hidx, fmap_app, <- app_assoc. reflexivity.
Qed.

(** X13. With a positive tile size no larger than the source, a scale range
    all of whose scales render and a background string that names a
    colour, [generate_tiles_once] returns exactly [tiles_count] tiles,
    numbered [0, 1, ...].  Each has its box inside the source, its centre
    at the box's corner plus half the tile size (rounded down), and as
    image a live RGB raster of the scaled tile size.  Nothing that was
    live is changed. *)
Theorem generate_tiles_once_tiles
    (w : World G) (src_rgba : ref) (s : Image) (tiles_count tw th : Z)
    (lo hi : float) (bg_color : string) (bg : Pixel) (rng : G) :
  images w !! src_rgba = Some s →
  0 < tw ≤ width s → 0 < th ≤ height s →
  range_renders G tw th lo hi → getcolor bg_color RGB = Some bg →
  ∃ tiles rng' w',
    Prototype.generate_tiles_once src_rgba tiles_count tw th lo hi bg_color rng w
    = Ok ((tiles, rng'), w')
    ∧ extends w w'
    ∧ Forall (tile_invariant w' s tw th) tiles
    ∧ index <$> tiles = seq 0 (Z.to_nat tiles_count).
Proof.
  intros Hs Hw Hh Hlh Hbg. unfold Prototype.generate_tiles_once, load. unfold_M.
  rewrite Hs. cbn [size].
  destruct (generate_tiles_spec (Z.to_nat tiles_count) 0 src_rgba s tw th
              lo hi bg_color bg rng [] w Hs Hw Hh Hlh Hbg (Forall_nil_2 _))
    as (tiles & rng' & w' & Hrun & Hext & _ & Hall & Hidx).
  exists tiles, rng', w'. done.
Qed.

End PrototypeTiles.

Section CompositorTotal.
Context {G : Type} `{PyRandom G} {R : Resampler} {C : ImageColor}.

(** One paste: the destination keeps its mode and size, nothing else that
    was live changes. *)
Lemma paste_with_center_frame
    (w : World G) (dest src : ref) (d s : Image) (center_x center_y : Z) :
  images w !! dest = Some d → images w !! src = Some s →
  ∃ w' d',
    paste_with_center dest src center_x center_y w = Ok (tt, w')
    ∧ images w' !! dest = Some d'
    ∧ mode d' = mode d ∧ size d' = size d
    ∧ random_inst w' = random_inst w
    ∧ (∀ r im, r ≠ dest → images w !! r = Some im → images w' !! r = Some im).
Proof.
  intros Hd Hs.
  rewrite (paste_with_center_run w dest src d s center_x center_y Hd Hs).
  cbv zeta. destruct (_ || _).
  { exists w, d. split_and!; done. }
  eexists _, _. split; [reflexivity|]. cbn [images random_inst].
  rewrite lookup_insert_eq. split_and!; [reflexivity..|].
  intros r im Hr Hl. by apply lookup_paste_other.
Qed.

(** One paste, seen from the destination: outside the rectangle of the
    source nothing changes. *)
Lemma paste_with_center_outside
    (w : World G) (dest src : ref) (d s : Image) (center_x center_y : Z) :
  images w !! dest = Some d → images w !! src = Some s →
  ∃ w' d',
    paste_with_center dest src center_x center_y w = Ok (tt, w')
    ∧ images w' !! dest = Some d'
    ∧ mode d' = mode d ∧ size d' = size d
    ∧ random_inst w' = random_inst w
    ∧ (∀ r im, r ≠ dest → images w !! r = Some im → images w' !! r = Some im)
    ∧ ∀ x y, in_bounds d x y →
        footprint (center_x, center_y) (width s) (height s) x y = false →
        getpixel d' x y = getpixel d x y.
Proof.
  intros Hd Hs.
  destruct (paste_with_center_frame w dest src d s center_x center_y Hd Hs)
    as (w1 & d1 & Hrun & Hd1 & Hm & Hsz & Hg & Hfr).
  pose proof (paste_with_center_pixels w dest src d s center_x center_y Hd Hs)
    as Hp.
  cbv zeta in Hp. destruct Hp as (w2 & d2 & Hrun2 & Hd2 & Hpix).
  rewrite Hrun in Hrun2. injection Hrun2 as <-.
  rewrite Hd1 in Hd2. injection Hd2 as <-.
  exists w1, d1. split_and!; try done.
  intros x y Hxy Hout. unfold footprint in Hout. cbn [fst snd] in Hout.
  rewrite (Hpix x y Hxy), Hout. reflexivity.
Qed.

Lemma placement_invariant_extends (w w' : World G) (s : Image) (tw th : Z)
    (p : TilePlacement) :
  extends w w' → placement_invariant w s tw th p →
  placement_invariant w' s tw th p.
Proof.
  intros Hext (Hbox & im & nw & nh & Him & Hm & Enw & Enh & Hsz).
  split; [done|]. exists im, nw, nh. split_and!; [|done..]. by apply Hext.
Qed.

(** The first loop of the compositor, with what it records of each tile. *)
Lemma sample_placements_invariant (n : nat) (src : ref) (s : Image)
    (tw th : Z) (lo hi : float) (background : string) (bg : Pixel)
    (placements : list TilePlacement) (rng : G) (w : World G) :
  images w !! src = Some s → 0 < tw ≤ width s → 0 < th ≤ height s →
  range_renders G tw th lo hi → getcolor background RGB = Some bg →
  Forall (placement_invariant w s tw th) placements →
  ∃ placements' rng' w',
    sample_placements n src (width s) (height s) tw th lo hi background
      placements rng w
    = Ok ((placements', rng'), w')
    ∧ extends w w'
    ∧ length placements' = (length placements + n)%nat
    ∧ Forall (placement_invariant w' s tw th) placements'.
Proof.
  revert placements rng w.
  induction n as [|n IH]; intros placements rng w Hs Hw Hh Hlh Hbg Hinv;
    cbn [sample_placements].
  { exists placements, rng, w.
    split_and!; [reflexivity|apply extends_refl|lia|done]. }
  unfold_M.
  destruct (choose_random_tile_position_valid (width s) (height s) tw th w Hw Hh)
    as (l & t & g' & -> & Hl & Ht).
  pose proof (Hlh rng) as Hren.
  destruct (Random_uniform lo hi rng) as [sc rng1]. cbn [fst] in *.
  destruct (renders_sizes tw th sc Hren)
    as (nw & nh & Enw & Enh & Hnw & Hnh).
  destruct (crop_and_scale_tile_run (mkWorld (images w) g') src s l t tw th
              nw nh sc Hs ltac:(lia) ltac:(lia) Enw Enh ltac:(left; lia))
    as (tile & w1 & im1 & -> & _ & Hlive1 & _ & Hsz1 & _ & _ & Hext1 & _ & _).
  destruct (flatten_opaque_run w1 tile im1 background bg Hlive1 (λ _, Hbg))
    as (out & w2 & -> & _ & Hlive2 & Hext2 & _).
  destruct (flattened_mode_size im1 bg) as [Hm2 Hsz2].
  assert (extends w w2) as Hext.
  { intros r im Hr. apply Hext2, Hext1. exact Hr. }
  edestruct (IH (placements ++ [mkTilePlacement out (l + tw / 2, t + th / 2) sc
                                  (l, t, l + tw, t + th)]) rng1 w2)
    as (placements' & rng' & w' & Hrun & Hext' & Hlen & Hall);
    [by apply Hext|done|done|done|done| |].
  - apply Forall_app. split.
    + eapply Forall_impl; [exact Hinv|]. intros p Hp.
      by eapply placement_invariant_extends.
    + apply Forall_singleton. unfold placement_invariant.
      cbn [image center scale box]. split.
      * exists l, t. split_and!; (lia || reflexivity).
      * exists (flattened im1 bg), nw, nh. split_and!; [done|done|done|done|].
        by rewrite Hsz2, Hsz1.
  - exists placements', rng', w'. split_and!; [exact Hrun| | |done].
    + by eapply extends_trans.
    + rewrite Hlen, length_app. simpl. lia.
Qed.

(** The second loop: a pixel of the canvas that no tile covers is not
    written, and no image but the canvas is. *)
Lemma paste_layers_outside (order : list nat) (placements : list TilePlacement)
    (canvas : ref) (c : Image) (tw th : Z) (w : World G) :
  images w !! canvas = Some c →
  Forall (λ i, (i < length placements)%nat) order →
  Forall (λ p, image p ≠ canvas
               ∧ ∃ im new_w new_h,
                   images w !! image p = Some im
                   ∧ scaled_size tw (scale p) = Ok new_w
                   ∧ scaled_size th (scale p) = Ok new_h
                   ∧ size im = (new_w, new_h))
         placements →
  ∃ w' c',
    paste_layers order placements canvas w = Ok (tt, w')
    ∧ images w' !! canvas = Some c'
    ∧ mode c' = mode c ∧ size c' = size c
    ∧ (∀ r im, r ≠ canvas → images w !! r = Some im → images w' !! r = Some im)
    ∧ ∀ x y, in_bounds c x y →
        Forall (λ p, covers tw th p x y = false) placements →
        getpixel c' x y = getpixel c x y.
Proof.
  revert c w. induction order as [|idx rest IH]; intros c w Hc Hidx Hlive;
    cbn [paste_layers].
  { exists w, c. split_and!; done. }
  apply Forall_cons in Hidx as [Hi Hrest].
  destruct (lookup_lt_is_Some_2 placements idx Hi) as [placement Hp].
  rewrite Hp. unfold_M.
  pose proof (list_elem_of_lookup_2 _ _ _ Hp) as Hin.
  destruct (proj1 (Forall_forall _ _) Hlive placement Hin)
    as (Hne & im & nw & nh & Him & Enw & Enh & Hsz).
  destruct (paste_with_center_outside w canvas (image placement) c im
              (center placement).1 (center placement).2 Hc Him)
    as (w1 & c1 & -> & Hc1 & Hm1 & Hs1 & _ & Hfr1 & Hpix1).
  destruct (IH c1 w1 Hc1 Hrest)
    as (w' & c' & Hrun & Hc' & Hm' & Hs' & Hfr' & Hpix').
  { eapply Forall_impl; [exact Hlive|].
    intros p (Hnp & imp & nwp & nhp & Himp & ? & ? & ?).
    split; [done|]. exists imp, nwp, nhp. split_and!; [|done..].
    by apply Hfr1. }
  exists w', c'. split_and!; [exact Hrun|exact Hc'|congruence|congruence| |].
  - intros r imr Hr Hl. by apply Hfr', Hfr1.
  - intros x y Hxy Hout. unfold size in Hs1, Hsz.
    injection Hs1 as Hw1 Hh1. injection Hsz as Hwi Hhi.
    rewrite Hpix'; [|unfold in_bounds in *; lia|done].
    apply Hpix1; [done|].
    pose proof (proj1 (Forall_forall _ _) Hout placement Hin) as Hf.
    unfold covers in Hf. rewrite Enw, Enh in Hf. rewrite Hwi, Hhi.
    destruct (center placement) as [cx cy]. exact Hf.
Qed.

(** What one call of the compositor on valid geometry does. *)
Lemma build_layered_tiles_run
    (w : World G) (src : ref) (s : Image) (tw th tile_count : Z)
    (lo hi : float) (background : string) (bg : Pixel) (rng : G) :
  images w !! src = Some s → 0 < tw ≤ width s → 0 < th ≤ height s →
  range_renders G tw th lo hi → getcolor background RGB = Some bg →
  ∃ canvas rng' w' c placements,
    build_layered_tiles src tw th tile_count lo hi background rng w
    = Ok ((canvas, rng'), w')
    ∧ images w !! canvas = None
    ∧ images w' !! canvas = Some c
    ∧ mode c = RGB ∧ size c = size s
    ∧ extends w w'
    ∧ length placements = Z.to_nat tile_count
    ∧ Forall (placement_invariant w' s tw th) placements
    ∧ ∀ x y, in_bounds s x y →
        Forall (λ p, covers tw th p x y = false) placements →
        getpixel c x y = bg.
Proof.
  intros Hs Hw Hh Hlh Hbg. unfold build_layered_tiles, load. unfold_M.
  rewrite Hs. cbn [size].
  destruct (sample_placements_invariant (Z.to_nat tile_count) src s
              tw th lo hi background bg [] rng w Hs Hw Hh Hlh Hbg
              (Forall_nil_2 _))
    as (placements & rng1 & w1 & -> & Hext1 & Hlen & Hinv).
  pose proof (Random_shuffle_range (Z.to_nat tile_count) rng1) as Hperm.
  destruct (Random_shuffle (range (Z.to_nat tile_count)) rng1) as [order rng2].
  cbn [fst] in Hperm.
  rewrite (Image_new_spec RGB (width s, height s) background bg) by done.
  destruct (alloc_spec (new_image RGB (width s, height s) bg) w1)
    as (canvas & w2 & -> & F2 & I2 & _ & E2).
  assert (images w2 !! canvas = Some (new_image RGB (width s, height s) bg))
    as Hc2.
  { rewrite I2. apply lookup_insert_eq. }
  assert (Forall (λ p, image p ≠ canvas) placements) as Hfresh.
  { eapply Forall_impl; [exact Hinv|].
    intros p (_ & im & ? & ? & Him & _) Heq. rewrite Heq in Him.
    rewrite Him in F2. discriminate. }
  destruct (paste_layers_outside order placements canvas _ tw th w2 Hc2)
    as (w' & c' & -> & Hc' & Hm' & Hs' & Hfr' & Hpix').
  { apply Forall_forall. intros i Hi. rewrite Hperm in Hi.
    apply elem_of_seq in Hi. simpl in Hlen. lia. }
  { apply Forall_forall. intros p Hp.
    pose proof (proj1 (Forall_forall _ _) Hfresh p Hp) as Hne.
    destruct (proj1 (Forall_forall _ _) Hinv p Hp)
      as (_ & im & nw & nh & Him & _ & Enw & Enh & Hsz).
    split; [done|]. exists im, nw, nh. split_and!; [by apply E2|done..]. }
  exists canvas, rng2, w', c', placements.
  split_and!; [reflexivity| |done|done|done| |by simpl in Hlen| |].
  - destruct (images w !! canvas) as [im|] eqn:E; [|done].
    apply Hext1 in E. rewrite E in F2. discriminate.
  - intros r im Hr. apply Hfr'.
    + intros ->. apply Hext1 in Hr. rewrite Hr in F2. discriminate.
    + by apply E2, Hext1.
  - apply Forall_forall. intros p Hp.
    pose proof (proj1 (Forall_forall _ _) Hfresh p Hp) as Hne.
    destruct (proj1 (Forall_forall _ _) Hinv p Hp)
      as (Hbox & im & nw & nh & Him & Hm & Enw & Enh & Hsz).
    split; [done|]. exists im, nw, nh. split_and!; [|done..].
    apply Hfr'; [done|]. by apply E2.
  - intros x y Hxy Hout. rewrite Hpix'; [reflexivity|exact Hxy|exact Hout].
Qed.

(** X14. On valid geometry, with a scale range all of whose scales render
    and a background string that names a colour, [build_layered_tiles]
    returns, for every tile count and generator state: a new RGB canvas of
    the size of the source.  The source and every other image that was
    live are unchanged. *)
Theorem build_layered_tiles_returns_canvas
    (w : World G) (src : ref) (s : Image) (tw th tile_count : Z)
    (lo hi : float) (background : string) (bg : Pixel) (rng : G) :
  images w !! src = Some s → 0 < tw ≤ width s → 0 < th ≤ height s →
  range_renders G tw th lo hi → getcolor background RGB = Some bg →
  ∃ canvas rng' w' c,
    build_layered_tiles src tw th tile_count lo hi background rng w
    = Ok ((canvas, rng'), w')
    ∧ images w !! canvas = None
    ∧ images w' !! canvas = Some c
    ∧ mode c = RGB ∧ size c = size s
    ∧ extends w w'.
Proof.
  intros Hs Hw Hh Hlh Hbg.
  destruct (build_layered_tiles_run w src s tw th tile_count lo hi background
              bg rng Hs Hw Hh Hlh Hbg)
    as (canvas & rng' & w' & c & _ & Hrun & Hnew & Hc & Hm & Hsz & Hext & _).
  exists canvas, rng', w', c. done.
Qed.

(** X15. With a tile count of zero or less no tile is sampled, whatever the
    tile size and the scales: the canvas is the plain background, and
    neither [rng] nor the module-level generator has advanced. *)
Theorem build_layered_tiles_no_tiles
    (w : World G) (src : ref) (s : Image) (tw th tile_count : Z)
    (lo hi : float) (background : string) (bg : Pixel) (rng : G) :
  images w !! src = Some s → tile_count ≤ 0 →
  getcolor background RGB = Some bg →
  ∃ canvas,
    build_layered_tiles src tw th tile_count lo hi background rng w
    = Ok ((canvas, rng),
          mkWorld (<[canvas := new_image RGB (size s) bg]> (images w))
                  (random_inst w))
    ∧ images w !! canvas = None.
Proof.
  intros Hs Hn Hbg. unfold build_layered_tiles, load. unfold_M. rewrite Hs.
  cbn [size]. rewrite (Z2Nat.nonpos tile_count Hn).
  cbn [sample_placements]. unfold_M. unfold Image_new. rewrite Hbg.
  eexists. split; [reflexivity|apply fresh_not_live].
Qed.

(** X16. With at least one tile to place and a geometry that is not valid,
    [build_layered_tiles] raises [ValueError]. *)
Theorem build_layered_tiles_rejects
    (w : World G) (src : ref) (s : Image) (tw th tile_count : Z)
    (lo hi : float) (background : string) (rng : G) :
  images w !! src = Some s → 1 ≤ tile_count →
  tw ≤ 0 ∨ th ≤ 0 ∨ width s < tw ∨ height s < th →
  ∃ msg,
    build_layered_tiles src tw th tile_count lo hi background rng w
    = Raise (ValueError msg).
Proof.
  intros Hs Hn Hbad. unfold build_layered_tiles, load. unfold_M. rewrite Hs.
  cbn [size].
  destruct (Z.to_nat tile_count) as [|n] eqn:E; [lia|].
  cbn [sample_placements]. unfold_M.
  destruct (choose_random_tile_position_invalid (width s) (height s) tw th w
              ltac:(lia)) as [msg ->].
  eauto.
Qed.


End CompositorTotal.

Section SingleTile.
Context {G : Type} `{PyRandom G} {R : Resampler} {C : ImageColor}.

(** The part of [build_single_tile] after the draws: render, paste on a
    transparent canvas, and flatten on the background when there is one. *)
Lemma build_single_tile_tail
    (w : World G) (src : ref) (s : Image) (l t tw th cx cy new_w new_h : Z)
    (sc : float) (background : option string) (bgp : Pixel)
    (rng' : option G) :
  images w !! src = Some s → 0 < tw → 0 < th →
  scaled_size tw sc = Ok new_w → scaled_size th sc = Ok new_h →
  new_w ≤ INT_MAX → new_h ≤ INT_MAX →
  (∀ bg, background = Some bg → truthy background = true →
         getcolor bg RGB = Some bgp) →
  ∃ out w' o,
    (tile ← crop_and_scale_tile src l t tw th sc;
     canvas ← Image_new RGBA (width s, height s) (ColorTuple [0; 0; 0; 0]);
     paste_with_center canvas tile cx cy;;
     match background with
     | Some bg =>
         if truthy background then
           final ← Image_new RGB (width s, height s) (ColorName bg);
           a ← Image_split_last canvas;
           Image_paste final canvas (0, 0) (Some a);;
           ret (final, rng')
         else ret (canvas, rng')
     | None => ret (canvas, rng')
     end) w
    = Ok ((out, rng'), w')
    ∧ images w !! out = None
    ∧ images w' !! out = Some o
    ∧ mode o = (if truthy background then RGB else RGBA)
    ∧ size o = size s
    ∧ extends w w'
    ∧ random_inst w' = random_inst w
    ∧ ∀ x y, in_bounds s x y → footprint (cx, cy) new_w new_h x y = false →
        getpixel o x y = (if truthy background then bgp else [0; 0; 0; 0]).
Proof.
  intros Hs Hw Hh Enw Enh Hfw Hfh Hbg. unfold_M.
  destruct (crop_and_scale_tile_run w src s l t tw th new_w new_h sc Hs Hw Hh
              Enw Enh (or_introl (conj Hfw Hfh)))
    as (tile & w1 & im1 & -> & _ & Hlive1 & _ & Hsz1 & _ & _ & Hext1 & Hg1 & _).
  unfold Image_new at 1.
  destruct (alloc_spec (new_image RGBA (width s, height s) [0; 0; 0; 0]) w1)
    as (canvas & w2 & -> & F2 & I2 & Hg2 & E2).
  assert (images w2 !! canvas
          = Some (new_image RGBA (width s, height s) [0; 0; 0; 0])) as Hc2.
  { rewrite I2. apply lookup_insert_eq. }
  destruct (paste_with_center_outside w2 canvas tile _ im1 cx cy Hc2
              (E2 _ _ Hlive1))
    as (w3 & c3 & -> & Hc3 & Hm3 & Hs3 & Hg3 & Hfr3 & Hpix3).
  assert (∀ x y, in_bounds s x y → footprint (cx, cy) new_w new_h x y = false →
                 getpixel c3 x y = [0; 0; 0; 0]) as Hclear.
  { intros x y Hxy Hout. rewrite Hpix3; [reflexivity|exact Hxy|].
    unfold size in Hsz1. injection Hsz1 as Hw1 Hh1. rewrite Hw1, Hh1.
    exact Hout. }
  assert (images w !! canvas = None) as Hnew_canvas.
  { destruct (images w !! canvas) as [im|] eqn:E; [|done].
    apply Hext1 in E. rewrite E in F2. discriminate. }
  assert (extends w w3) as Hext3.
  { intros r im Hr. apply Hfr3.
    - intros ->. rewrite Hnew_canvas in Hr. discriminate.
    - by apply E2, Hext1. }
  assert (∃ o, (ret (canvas, rng') : M G _) w3 = Ok ((canvas, rng'), w3)
               ∧ images w !! canvas = None
               ∧ images w3 !! canvas = Some o
               ∧ mode o = RGBA ∧ size o = size s
               ∧ extends w w3 ∧ random_inst w3 = random_inst w
               ∧ ∀ x y, in_bounds s x y →
                   footprint (cx, cy) new_w new_h x y = false →
                   getpixel o x y = [0; 0; 0; 0]) as Hplain.
  { exists c3. unfold size in Hs3. injection Hs3 as Hw3 Hh3.
    split_and!; [reflexivity|done|done|done| |done|congruence|done].
    unfold size. by rewrite Hw3, Hh3. }
  destruct background as [bg|]; [|destruct Hplain as [o Ho]; by exists canvas, w3, o].
  assert (truthy (Some bg) = true → getcolor bg RGB = Some bgp) as Hc
    by (intros; by apply Hbg).
  clear Hbg.
  destruct (truthy (Some bg));
    [|destruct Hplain as [o Ho]; by exists canvas, w3, o].
  specialize (Hc eq_refl).
  rewrite (Image_new_spec RGB (width s, height s) bg bgp) by done.
  destruct (getcolor_valid _ _ _ Hc) as [Hlen Hval].
  destruct (alloc_spec (new_image RGB (width s, height s) bgp) w3)
    as (final & w4 & -> & F4 & I4 & Hg4 & E4).
  unfold Image_split_last, load. unfold_M. rewrite (E4 _ _ Hc3).
  destruct (alloc_spec (last_band c3) w4)
    as (a & w5 & -> & F5 & I5 & Hg5 & E5).
  unfold Image_paste, load, store. unfold_M.
  rewrite (E5 _ _ (E4 _ _ Hc3)).
  assert (images w4 !! final = Some (new_image RGB (width s, height s) bgp))
    as L4.
  { rewrite I4. apply lookup_insert_eq. }
  assert (images w5 !! a = Some (last_band c3)) as L5.
  { rewrite I5. apply lookup_insert_eq. }
  rewrite L5, (E5 _ _ L4). cbn [width height last_band].
  rewrite !Z.eqb_refl. cbn [andb fst snd].
  eexists _, _, _. split; [reflexivity|]. cbn [images random_inst].
  rewrite lookup_insert_eq.
  assert (images w !! final = None) as Hnew.
  { destruct (images w !! final) as [im|] eqn:E; [|done].
    apply Hext3 in E. rewrite E in F4. discriminate. }
  split_and!; [exact Hnew|reflexivity|reflexivity|reflexivity| |congruence|].
  - intros r im Hr. cbn [images]. rewrite lookup_insert_ne.
    + by apply E5, E4, Hext3.
    + intros <-. rewrite Hnew in Hr. discriminate.
  - intros x y Hxy Hout.
    unfold size in Hs3. injection Hs3 as Hw3 Hh3.
    cbn [paste_image getpixel new_image last_band width height mode].
    rewrite Hw3, Hh3. cbn [fst snd].
    assert (inside 0 0 (0 + width s) (0 + height s) x y = true) as ->
      by (apply inside_true; unfold in_bounds in Hxy; lia).
    rewrite !Z.sub_0_r, (Hclear x y Hxy Hout), Hm3.
    apply blend_pixel_transparent; [by rewrite Hlen|done].
Qed.

(** The draws of [build_single_tile], then its tail. *)
Lemma build_single_tile_run
    (w : World G) (src : ref) (s : Image) (tw th : Z) (lo hi : float)
    (background : option string) (bgp : Pixel) (rng : option G) :
  images w !! src = Some s → 0 < tw ≤ width s → 0 < th ≤ height s →
  range_renders G tw th lo hi →
  (∀ bg, background = Some bg → truthy background = true →
         getcolor bg RGB = Some bgp) →
  ∃ left_ top_ new_w new_h out rng' w' o,
    build_single_tile src tw th lo hi background rng w = Ok ((out, rng'), w')
    ∧ images w !! out = None
    ∧ images w' !! out = Some o
    ∧ mode o = (if truthy background then RGB else RGBA)
    ∧ size o = size s
    ∧ extends w w'
    ∧ (is_Some rng' ↔ is_Some rng)
    ∧ 0 ≤ left_ ≤ width s - tw ∧ 0 ≤ top_ ≤ height s - th
    ∧ 1 ≤ new_w ∧ 1 ≤ new_h
    ∧ ∀ x y, in_bounds s x y →
        footprint (left_ + tw / 2, top_ + th / 2) new_w new_h x y = false →
        getpixel o x y = (if truthy background then bgp else [0; 0; 0; 0]).
Proof.
  intros Hs Hw Hh Hlh Hbg. unfold build_single_tile, load.
  unfold mbind at 1, M_bind at 1, bind at 1. rewrite Hs. cbn [size].
  unfold mbind at 1, M_bind at 1, bind at 1.
  destruct (choose_random_tile_position_valid (width s) (height s) tw th w Hw Hh)
    as (l & t & g' & -> & Hl & Ht).
  destruct rng as [g0|].
  - unfold mbind at 1, M_bind at 1, bind at 1.
    pose proof (Hlh g0) as Hren.
    destruct (Random_uniform lo hi g0) as [sc g1]. cbn [fst] in *.
    unfold ret at 1.
    destruct (renders_sizes tw th sc Hren)
      as (nw & nh & Enw & Enh & Hnw & Hnh).
    destruct (build_single_tile_tail (mkWorld (images w) g') src s l t tw th
                (l + tw / 2) (t + th / 2) nw nh sc background bgp (Some g1) Hs
                ltac:(lia) ltac:(lia) Enw Enh ltac:(lia) ltac:(lia) Hbg)
      as (out & w' & o & -> & Hnew & Ho & Hm & Hsz & Hext & _ & Hpix).
    exists l, t, nw, nh, out, (Some g1), w', o.
    split_and!; try done; try lia.
  - unfold mbind at 1, M_bind at 1, bind at 1.
    unfold mbind at 1, M_bind at 1, bind at 1. unfold random_uniform.
    cbn [random_inst images].
    pose proof (Hlh g') as Hren.
    destruct (Random_uniform lo hi g') as [sc g1]. cbn [fst] in *.
    unfold ret at 1.
    destruct (renders_sizes tw th sc Hren)
      as (nw & nh & Enw & Enh & Hnw & Hnh).
    destruct (build_single_tile_tail (mkWorld (images w) g1) src s l t tw th
                (l + tw / 2) (t + th / 2) nw nh sc background bgp None Hs
                ltac:(lia) ltac:(lia) Enw Enh ltac:(lia) ltac:(lia) Hbg)
      as (out & w' & o & -> & Hnew & Ho & Hm & Hsz & Hext & _ & Hpix).
    exists l, t, nw, nh, out, None, w', o.
    split_and!; try done; try lia.
    all: try (split; intros [? ?]; discriminate).
Qed.

(** X18. On valid geometry, with a scale range all of whose scales render
    and a background that is absent, empty or the name of a colour,
    [build_single_tile] returns, with or without a generator: a new raster
    of the size of the source, RGB when a background is given and RGBA
    otherwise.  Every image that was live is unchanged, and a generator is
    returned exactly when one was passed. *)
Theorem build_single_tile_returns_image
    (w : World G) (src : ref) (s : Image) (tw th : Z) (lo hi : float)
    (background : option string) (bgp : Pixel) (rng : option G) :
  images w !! src = Some s → 0 < tw ≤ width s → 0 < th ≤ height s →
  range_renders G tw th lo hi →
  (∀ bg, background = Some bg → truthy background = true →
         getcolor bg RGB = Some bgp) →
  ∃ out rng' w' o,
    build_single_tile src tw th lo hi background rng w = Ok ((out, rng'), w')
    ∧ images w !! out = None
    ∧ images w' !! out = Some o
    ∧ mode o = (if truthy background then RGB else RGBA)
    ∧ size o = size s
    ∧ extends w w'
    ∧ (is_Some rng' ↔ is_Some rng).
Proof.
  intros Hs Hw Hh Hlh Hbg.
  destruct (build_single_tile_run w src s tw th lo hi background bgp rng
              Hs Hw Hh Hlh Hbg)
    as (l & t & nw & nh & out & rng' & w' & o & Hrun & Hnew & Ho & Hm & Hsz
        & Hext & Hrng & _).
  exists out, rng', w', o. done.
Qed.


End SingleTile.


Section AnimationFrames.
Context {G : Type} `{PyRandom G} {R : Resampler} {C : ImageColor}.

Lemma animation_frames_spec (n : nat) (src : ref) (s : Image)
    (tiles_per_frame tw th : Z) (lo hi : float) (bg : string) (bgp : Pixel)
    (base_rng : G) (result : list ref) (w0 w : World G) :
  images w !! src = Some s → 0 < tw ≤ width s → 0 < th ≤ height s →
  range_renders G tw th lo hi → getcolor bg RGB = Some bgp →
  extends w0 w → NoDup result →
  Forall (λ f, images w0 !! f = None
               ∧ ∃ c, images w !! f = Some c ∧ mode c = RGB ∧ size c = size s)
         result →
  ∃ frames w',
    animation_frames n src tiles_per_frame tw th lo hi bg base_rng result w
    = Ok (frames, w')
    ∧ extends w w'
    ∧ length frames = (length result + n)%nat
    ∧ NoDup frames
    ∧ Forall (λ f, images w0 !! f = None
                   ∧ ∃ c, images w' !! f = Some c ∧ mode c = RGB
                          ∧ size c = size s)
             frames.
Proof.
  revert base_rng result w.
  induction n as [|n IH];
    intros base_rng result w Hs Hw Hh Hlh Hbg Hext0 Hnd Hall;
    cbn [animation_frames].
  { exists result, w. split_and!; [reflexivity|apply extends_refl|lia|done..]. }
  destruct (Random_randint_spec 0 (2 ^ 63 - 1) base_rng ltac:(lia))
    as (frame_seed & base_rng' & -> & _).
  unfold_M.
  destruct (build_layered_tiles_run w src s tw th tiles_per_frame lo hi bg bgp
              (Random_seed frame_seed) Hs Hw Hh Hlh Hbg)
    as (canvas & rng' & w1 & c & _ & -> & Hnew & Hc & Hm & Hsz & Hext1 & _).
  edestruct (IH base_rng' (result ++ [canvas]) w1)
    as (frames & w' & Hrun & Hext' & Hlen & Hnd' & Hall');
    [by apply Hext1|done|done|done|done|by eapply extends_trans| | |].
  - apply NoDup_app. split_and!; [done| |apply NoDup_singleton].
    intros f Hf ->%list_elem_of_singleton.
    eapply Forall_forall in Hall; [|exact Hf].
    destruct Hall as (_ & c' & Hc' & _). rewrite Hnew in Hc'. discriminate.
  - apply Forall_app. split.
    + eapply Forall_impl; [exact Hall|]. intros f (Hf0 & c' & Hc' & ? & ?).
      split; [done|]. exists c'. split_and!; [by apply Hext1|done..].
    + apply Forall_singleton. split; [|eauto].
      destruct (images w0 !! canvas) as [im|] eqn:E; [|done].
      apply Hext0 in E. rewrite E in Hnew. discriminate.
  - exists frames, w'. split_and!; [exact Hrun| | |done|done].
    + by eapply extends_trans.
    + rewrite Hlen, length_app. simpl. lia.
Qed.

(** X20. On valid geometry, with a scale range all of whose scales render
    and a background string that names a colour, [build_animation_frames]
    returns exactly [frames] frames (none when [frames] is zero or
    negative), with or without a seed.  The frames are distinct new
    objects, each an RGB raster of the size of the source, and every image
    that was live is unchanged. *)
Theorem build_animation_frames_returns_frames
    (w : World G) (src : ref) (s : Image)
    (frames_n tiles_per_frame tw th : Z) (lo hi : float) (bg : string)
    (bgp : Pixel) (seed : option Z) (entropy : G) :
  images w !! src = Some s → 0 < tw ≤ width s → 0 < th ≤ height s →
  range_renders G tw th lo hi → getcolor bg RGB = Some bgp →
  ∃ frames w',
    build_animation_frames src frames_n tiles_per_frame tw th lo hi bg
      seed entropy w
    = Ok (frames, w')
    ∧ length frames = Z.to_nat frames_n
    ∧ NoDup frames
    ∧ Forall (λ f, images w !! f = None
                   ∧ ∃ c, images w' !! f = Some c ∧ mode c = RGB
                          ∧ size c = size s)
             frames
    ∧ extends w w'.
Proof.
  intros Hs Hw Hh Hlh Hbg. unfold build_animation_frames.
  destruct (animation_frames_spec (Z.to_nat frames_n) src s tiles_per_frame
              tw th lo hi bg bgp
              (match seed with Some s0 => Random_seed s0 | None => entropy end)
              [] w w Hs Hw Hh Hlh Hbg (extends_refl w) (NoDup_nil_2)
              (Forall_nil_2 _))
    as (frames & w' & Hrun & Hext & Hlen & Hnd & Hall).
  exists frames, w'. split_and!; done.
Qed.

End AnimationFrames.

Section PermutationsComplete.
Context {A : Type}.
Implicit Types (l p : list A) (x : A).

Lemma picks_elem l x : x ∈ l → ∃ rest, (x, rest) ∈ picks l.
Proof.
  induction l as [|y t IH]; intros Hx; [by apply elem_of_nil in Hx|].
  cbn [picks]. apply elem_of_cons in Hx as [->|Hx].
  - exists t. by left.
  - destruct (IH Hx) as [rest Hrest]. exists (y :: rest). right.
    apply list_elem_of_fmap. by exists (x, rest).
Qed.

(** The enumeration misses no permutation. *)
Lemma permutations_complete p l : p ≡ₚ l → p ∈ permutations l.
Proof.
  revert l. induction p as [|x p IH]; intros l Hp.
  - apply Permutation_nil_l in Hp. subst l. apply list_elem_of_here.
  - assert (x ∈ l) as Hx by (rewrite <- Hp; by left).
    destruct (picks_elem l x Hx) as [rest Hrest].
    pose proof (picks_Permutation l x rest Hrest) as Hl.
    assert (p ≡ₚ rest) as Hpr.
    { apply (Permutation_cons_inv (a := x)). by rewrite Hp, Hl. }
    assert (length l = S (length rest)) as Hlen
      by (apply Permutation_length in Hl; exact Hl).
    unfold permutations. rewrite Hlen. cbn [permutations_r].
    apply list_elem_of_bind. exists (x, rest). split; [|done].
    cbn [fst snd]. apply list_elem_of_fmap. exists p. split; [done|].
    by apply IH.
Qed.

End PermutationsComplete.

Section AllocatorMore.
Context {G : Type} `{PyRandom G}.

(** There are no more than [n!] distinct layer orders of [n] tiles. *)
Lemma layer_orders_bounded (n : nat) (orders : list (list nat)) :
  NoDup orders → Forall (layer_order n) orders →
  (length orders ≤ fact n)%nat.
Proof.
  intros Hnd Hall.
  replace (fact n) with (length (permutations (seq 0 n)))
    by (rewrite permutations_length, length_seq; reflexivity).
  apply submseteq_length, NoDup_submseteq; [done|].
  intros o Ho. apply permutations_complete.
  eapply Forall_forall in Hall; [exact Hall|done].
Qed.

(** X21. In either branch [build_unique_orders] returns orders that are
    pairwise distinct, at most [frames] of them and at most [tiles_n!]. *)
Theorem build_unique_orders_distinct_and_bounded
    (tiles_n frames : nat) (rng : G) :
  let orders := (Legacy.build_unique_orders tiles_n frames rng).1 in
  NoDup orders
  ∧ (length orders ≤ frames)%nat
  ∧ Z.of_nat (length orders) ≤ factorial tiles_n.
Proof.
  intros orders.
  destruct (build_unique_orders_spec tiles_n frames rng) as (Hle & Hnd & Hall).
  fold orders in Hle, Hnd, Hall. split_and!; [done|done|].
  rewrite factorial_fact. apply inj_le. by apply layer_orders_bounded.
Qed.

(** X22. When more frames are asked for than [tiles_n] tiles have orders,
    the orders [main] paints with repeat: some order is used for two
    frames. *)
Theorem main_orders_repeat_beyond_factorial
    (tiles_n frames : nat) (rng : G) :
  factorial tiles_n < Z.of_nat frames →
  ¬ NoDup (Legacy.main_orders tiles_n frames rng).1.
Proof.
  intros Hmany Hnd.
  destruct (main_orders_spec tiles_n frames rng) as (extra & Heq & Hlen & Hextra).
  destruct (build_unique_orders_spec tiles_n frames rng) as (_ & _ & Hall).
  rewrite <- Heq in Hlen.
  assert (length (Legacy.main_orders tiles_n frames rng).1 ≤ fact tiles_n)%nat
    as Hb.
  { apply layer_orders_bounded; [done|].
    rewrite Heq. by apply Forall_app. }
  rewrite factorial_fact in Hmany. lia.
Qed.

Lemma frame_orders_spec (n tiles_n : nat) (master_rng : G)
    (orders : list (list nat)) :
  Forall (layer_order tiles_n) orders →
  ∃ orders' rng',
    Prototype.frame_orders n tiles_n master_rng orders = Ok (orders', rng')
    ∧ length orders' = (length orders + n)%nat
    ∧ Forall (layer_order tiles_n) orders'.
Proof.
  revert master_rng orders.
  induction n as [|n IH]; intros master_rng orders Hall;
    cbn [Prototype.frame_orders].
  { exists orders, master_rng. split_and!; [reflexivity|lia|done]. }
  destruct (Random_randint_spec 0 (2 ^ 63 - 1) master_rng ltac:(lia))
    as (frame_seed & rng1 & -> & _).
  pose proof (Random_shuffle_range tiles_n (Random_seed frame_seed)) as Hperm.
  destruct (Random_shuffle (range tiles_n) (Random_seed frame_seed))
    as [order rng2]. cbn [fst] in Hperm.
  destruct (IH rng1 (orders ++ [order])) as (orders' & rng' & Hrun & Hlen & Hall').
  { apply Forall_app. split; [done|]. by apply Forall_singleton. }
  exists orders', rng'. split_and!; [exact Hrun| |done].
  rewrite Hlen, length_app. simpl. lia.
Qed.

(** X23. Without [--unique-permutations], [main] builds exactly [frames]
    orders, one shuffle per frame from a generator seeded by the master
    generator, and each is a permutation of [range(tiles_n)]; it never
    raises. *)
Theorem frame_orders_one_per_frame (frames tiles_n : nat) (master_rng : G) :
  ∃ orders rng',
    Prototype.frame_orders frames tiles_n master_rng [] = Ok (orders, rng')
    ∧ length orders = frames
    ∧ Forall (layer_order tiles_n) orders.
Proof.
  destruct (frame_orders_spec frames tiles_n master_rng [] (Forall_nil_2 _))
    as (orders & rng' & Hrun & Hlen & Hall).
  exists orders, rng'. done.
Qed.

(** X24. The tiles [main] animates are drawn without replacement:
    [animate_indices] holds [animate_count] tile indices (all [tiles_n] of
    them if the count is larger), no index twice, each below [tiles_n]. *)
Theorem animate_indices_distinct (tiles_n animate_count : nat) (master_rng : G) :
  let indices := (Prototype.animate_indices tiles_n animate_count master_rng).1 in
  length indices = Nat.min animate_count tiles_n
  ∧ NoDup indices
  ∧ Forall (λ i, (i < tiles_n)%nat) indices.
Proof.
  unfold Prototype.animate_indices.
  destruct (0 <? animate_count)%nat eqn:E.
  - pose proof (Random_shuffle_range tiles_n master_rng) as Hperm.
    destruct (Random_shuffle (range tiles_n) master_rng) as [all_indices rng'].
    cbn [fst] in *. split_and!.
    + rewrite length_take, Hperm, length_seq. reflexivity.
    + eapply sublist_NoDup; [|apply sublist_take].
      rewrite Hperm. apply NoDup_seq.
    + apply Forall_take. apply Forall_forall. intros i Hi.
      rewrite Hperm in Hi. apply elem_of_seq in Hi. lia.
  - apply Nat.ltb_ge in E. cbn [fst].
    split_and!; [simpl; lia|constructor|constructor].
Qed.

End AllocatorMore.

(** ** Runs of the further properties *)

Lemma paste_with_center_copies_visible_part_witness :
  let paste_x := 1 - width green_dot / 2 in
  let paste_y := 0 - height green_dot / 2 in
  ∃ w' d',
    paste_with_center 0%nat 1%nat 1 0 (two_images 0) = Ok (tt, w')
    ∧ images w' !! 0%nat = Some d'
    ∧ ∀ x y, in_bounds red_blue x y →
        getpixel d' x y
        = if inside paste_x paste_y (paste_x + width green_dot)
               (paste_y + height green_dot) x y
          then convert_pixel (mode green_dot) (mode red_blue)
                 (getpixel green_dot (x - paste_x) (y - paste_y))
          else getpixel red_blue x y.
Proof.
  apply (paste_with_center_copies_visible_part
           (two_images 0) 0%nat 1%nat red_blue green_dot 1 0);
    [reflexivity | reflexivity | discriminate].
Defined.

Lemma valid_glass_pixel : valid_pixel RGBA [10; 20; 30; 0].
Proof. split; [reflexivity|]. repeat constructor; lia. Qed.

Lemma valid_red_pixel : valid_pixel RGB [255; 0; 0].
Proof. split; [reflexivity|]. repeat constructor; lia. Qed.

Lemma valid_white_pixel : valid_pixel RGB [255; 255; 255].
Proof. split; [reflexivity|]. repeat constructor; lia. Qed.

Lemma paste_with_center_alpha_extremes_witness :
  let paste_x := 0 - width glass_dot / 2 in
  let paste_y := 0 - height glass_dot / 2 in
  let p := getpixel glass_dot (0 - paste_x) (0 - paste_y) in
  ∃ w' d',
    paste_with_center 0%nat 2%nat 0 0 (three_images 0) = Ok (tt, w')
    ∧ images w' !! 0%nat = Some d'
    ∧ (mask_value p = 0 → getpixel d' 0 0 = getpixel red_blue 0 0)
    ∧ (mask_value p = 255 →
       getpixel d' 0 0 = convert_pixel RGBA (mode red_blue) p).
Proof.
  apply (paste_with_center_alpha_extremes
           (three_images 0) 0%nat 2%nat red_blue glass_dot 0 0 0 0);
    [reflexivity | reflexivity | reflexivity
    | vm_compute; repeat split; (reflexivity || discriminate)
    | vm_compute; repeat split; (reflexivity || discriminate)
    | exact valid_glass_pixel | exact valid_red_pixel].
Defined.

Lemma flatten_opaque_new_rgb_witness :
  (mode glass_dot ≠ RGBA ∨ is_Some (getcolor "white" RGB) →
   ∃ out w' o,
     flatten_opaque 2%nat "white" (three_images 0) = Ok (out, w')
     ∧ images (three_images 0) !! out = None
     ∧ images w' !! out = Some o
     ∧ mode o = RGB ∧ size o = size glass_dot
     ∧ extends (three_images 0) w'
     ∧ random_inst w' = random_inst (three_images 0))
  ∧ (mode glass_dot = RGBA → getcolor "notacolor" RGB = None →
     ∃ msg,
       flatten_opaque 2%nat "notacolor" (three_images 0)
       = Raise (ValueError msg)).
Proof.
  split.
  - apply (flatten_opaque_new_rgb (three_images 0) 2%nat glass_dot "white").
    reflexivity.
  - apply (flatten_opaque_new_rgb (three_images 0) 2%nat glass_dot "notacolor").
    reflexivity.
Defined.

Lemma flatten_opaque_alpha_extremes_witness :
  ∃ out w' o,
    flatten_opaque 2%nat "white" (three_images 0) = Ok (out, w')
    ∧ images w' !! out = Some o
    ∧ (in_bounds glass_dot 0 0 → mask_value (getpixel glass_dot 0 0) = 255 →
       getpixel o 0 0 = take 3 (getpixel glass_dot 0 0))
    ∧ (in_bounds glass_dot 0 0 → mask_value (getpixel glass_dot 0 0) = 0 →
       getpixel o 0 0 = [255; 255; 255])
    ∧ (¬ in_bounds glass_dot 0 0 → getpixel o 0 0 = [255; 255; 255]).
Proof.
  apply (flatten_opaque_alpha_extremes
           (three_images 0) 2%nat glass_dot "white" [255; 255; 255] 0 0);
    [reflexivity | reflexivity | reflexivity | exact valid_glass_pixel].
Defined.

Lemma toolkit_paste_matches_prototype_witness :
  Prototype.paste_opaque_with_center 0%nat 1%nat 1 0 (two_images 0)
  = paste_with_center 0%nat 1%nat 1 0 (two_images 0)
  ∧ Prototype.crop_and_scale_tile_from_src (G:=Z) = crop_and_scale_tile
  ∧ Prototype.flatten_tile_to_opaque (G:=Z) = flatten_opaque.
Proof.
  apply (toolkit_paste_matches_prototype (two_images 0) 0%nat 1%nat 1 0).
  intros s Hs. change (Some green_dot = Some s) in Hs.
  injection Hs as <-. discriminate.
Defined.

Lemma generate_tiles_once_tiles_witness :
  ∃ tiles rng' w',
    Prototype.generate_tiles_once 0%nat 3 1 1 1.2 1.6 "white"
      (Random_seed 42) (one_image 0)
    = Ok ((tiles, rng'), w')
    ∧ extends (one_image 0) w'
    ∧ Forall (tile_invariant w' red_blue 1 1) tiles
    ∧ index <$> tiles = seq 0 (Z.to_nat 3).
Proof.
  apply (generate_tiles_once_tiles (one_image 0) 0%nat red_blue 3 1 1 1.2 1.6
           "white" [255; 255; 255] (Random_seed 42));
    [reflexivity | simpl; lia | simpl; lia
    | apply lcg_range_renders_sound; vm_compute; reflexivity | reflexivity].
Defined.

Lemma build_layered_tiles_returns_canvas_witness :
  ∃ canvas rng' w' c,
    build_layered_tiles 0%nat 1 1 3 1.2 1.6 "white" (Random_seed 42)
      (one_image 0)
    = Ok ((canvas, rng'), w')
    ∧ images (one_image 0) !! canvas = None
    ∧ images w' !! canvas = Some c
    ∧ mode c = RGB ∧ size c = size red_blue
    ∧ extends (one_image 0) w'.
Proof.
  apply (build_layered_tiles_returns_canvas (one_image 0) 0%nat red_blue 1 1 3
           1.2 1.6 "white" [255; 255; 255] (Random_seed 42));
    [reflexivity | simpl; lia | simpl; lia
    | apply lcg_range_renders_sound; vm_compute; reflexivity | reflexivity].
Defined.

Lemma build_layered_tiles_no_tiles_witness :
  ∃ canvas,
    build_layered_tiles 0%nat 7 7 0 1 1.5 "white" (Random_seed 42)
      (one_image 0)
    = Ok ((canvas, Random_seed 42),
          mkWorld (<[canvas := new_image RGB (size red_blue) [255; 255; 255]]>
                     (images (one_image 0)))
                  (random_inst (one_image 0)))
    ∧ images (one_image 0) !! canvas = None.
Proof.
  apply (build_layered_tiles_no_tiles (one_image 0) 0%nat red_blue 7 7 0
           1 1.5 "white" [255; 255; 255] (Random_seed 42));
    [reflexivity | lia | reflexivity].
Defined.

Lemma build_layered_tiles_rejects_witness :
  ∃ msg,
    build_layered_tiles 0%nat 7 7 1 1 1.5 "white" (Random_seed 42)
      (one_image 0)
    = Raise (ValueError msg).
Proof.
  apply (build_layered_tiles_rejects (one_image 0) 0%nat red_blue 7 7 1
           1 1.5 "white" (Random_seed 42));
    [reflexivity | lia | simpl; lia].
Defined.

Lemma build_single_tile_returns_image_witness :
  ∃ out rng' w' o,
    build_single_tile 0%nat 1 1 1.2 1.6 None None (one_image 0)
    = Ok ((out, rng'), w')
    ∧ images (one_image 0) !! out = None
    ∧ images w' !! out = Some o
    ∧ mode o = RGBA
    ∧ size o = size red_blue
    ∧ extends (one_image 0) w'
    ∧ (is_Some rng' ↔ is_Some (@None Z)).
Proof.
  apply (build_single_tile_returns_image (one_image 0) 0%nat red_blue 1 1
           1.2 1.6 None [] None);
    [reflexivity | simpl; lia | simpl; lia
    | apply lcg_range_renders_sound; vm_compute; reflexivity | discriminate].
Defined.

Lemma build_animation_frames_returns_frames_witness :
  ∃ frames w',
    build_animation_frames 0%nat 2 3 1 1 1.2 1.6 "white"
      (Some 42) 0 (one_image 0)
    = Ok (frames, w')
    ∧ length frames = Z.to_nat 2
    ∧ NoDup frames
    ∧ Forall (λ f, images (one_image 0) !! f = None
                   ∧ ∃ c, images w' !! f = Some c ∧ mode c = RGB
                          ∧ size c = size red_blue)
             frames
    ∧ extends (one_image 0) w'.
Proof.
  apply (build_animation_frames_returns_frames (one_image 0) 0%nat red_blue
           2 3 1 1 1.2 1.6 "white" [255; 255; 255] (Some 42) 0);
    [reflexivity | simpl; lia | simpl; lia
    | apply lcg_range_renders_sound; vm_compute; reflexivity | reflexivity].
Defined.

Lemma main_orders_repeat_beyond_factorial_witness :
  ¬ NoDup (Legacy.main_orders 2 5 (Random_seed 42)).1.
Proof.
  apply (main_orders_repeat_beyond_factorial 2 5 (Random_seed 42)).
  reflexivity.
Defined.


